(** * Image optimizer: a shallow embedding of [src/optimizer.ts], of the
    serverless handler [api/optimize.ts] and of the Express route of
    [src/index.ts], with the properties of the specification checked
    against them.

    Conventions of the embedding.

    - An [async] function is a computation in the monad [M]: it threads the
      state of the outside world and the list of calls made so far, and ends
      either with a value ([Ok]) or with a thrown value / rejected promise
      ([Thrown]).  [try { } catch { }] is [try_catch].
    - The collaborators the code only calls ([fs], [sharp], [archiver]) are
      the fields of a record [Sys]; every theorem holds whatever they do.
      [Sim] gives one concrete instance, used for the examples.
    - Node's [path] module (POSIX flavour) is written out in [NodePath].
    - A JavaScript [number] is a value of [num]: an exact rational or one of
      [NaN], [+Infinity], [-Infinity].  Rounding error of IEEE doubles is not
      modelled; division by zero and [NaN] propagation are. *)

From Stdlib Require Import ZArith QArith Qround Lia List Ascii String Bool.
From Stdlib Require Import DecimalString Lqa.
From Stdlib Require Reals Lra.
From stdpp Require Import base option list strings gmap.

Set Warnings "-register-all".

Local Open Scope string_scope.
Local Open Scope Z_scope.

(* ===================================================================== *)
(** ** JavaScript numbers *)
(* ===================================================================== *)

Module JsNum.

Inductive num : Type :=
| Fin (q : Q)
| PInf
| NInf
| NaN.

Definition of_Z (z : Z) : num := Fin (inject_Z z).
Definition of_N (n : N) : num := of_Z (Z.of_N n).

(** [a - b] *)
Definition sub (a b : num) : num :=
  match a, b with
  | NaN, _ | _, NaN => NaN
  | Fin x, Fin y => Fin (x - y)
  | PInf, PInf | NInf, NInf => NaN
  | PInf, _ | _, NInf => PInf
  | NInf, _ | _, PInf => NInf
  end.

(** Sign of a rational: [Lt], [Eq] or [Gt] as it compares with 0. *)
Definition sgn (x : Q) : comparison := (Qnum x ?= 0)%Z.

(** [a * b] *)
Definition mul (a b : num) : num :=
  match a, b with
  | NaN, _ | _, NaN => NaN
  | Fin x, Fin y => Fin (x * y)
  | Fin x, PInf | PInf, Fin x =>
      match sgn x with Gt => PInf | Lt => NInf | Eq => NaN end
  | Fin x, NInf | NInf, Fin x =>
      match sgn x with Gt => NInf | Lt => PInf | Eq => NaN end
  | PInf, PInf | NInf, NInf => PInf
  | PInf, NInf | NInf, PInf => NaN
  end.

(** [a / b]; the zero divisor met in this program is always [+0]. *)
Definition div (a b : num) : num :=
  match a, b with
  | NaN, _ | _, NaN => NaN
  | Fin x, Fin y =>
      match sgn y with
      | Eq => match sgn x with Gt => PInf | Lt => NInf | Eq => NaN end
      | _ => Fin (x / y)
      end
  | Fin _, (PInf | NInf) => Fin 0
  | (PInf | NInf), (PInf | NInf) => NaN
  | PInf, Fin y => match sgn y with Lt => NInf | _ => PInf end
  | NInf, Fin y => match sgn y with Lt => PInf | _ => NInf end
  end.

(** [Math.round]: the nearest integer, ties towards [+Infinity]. *)
Definition round_Q (x : Q) : Z := Qfloor (x + (1 # 2)).

Definition round (a : num) : num :=
  match a with
  | Fin x => of_Z (round_Q x)
  | other => other
  end.

(** [Math.max(a, b)] and [Math.min(a, b)]: [NaN] if either one is. *)
Definition max (a b : num) : num :=
  match a, b with
  | NaN, _ | _, NaN => NaN
  | PInf, _ | _, PInf => PInf
  | NInf, c | c, NInf => c
  | Fin x, Fin y => if Qle_bool x y then Fin y else Fin x
  end.

Definition min (a b : num) : num :=
  match a, b with
  | NaN, _ | _, NaN => NaN
  | NInf, _ | _, NInf => NInf
  | PInf, c | c, PInf => c
  | Fin x, Fin y => if Qle_bool x y then Fin x else Fin y
  end.

End JsNum.

Import JsNum.

(* ===================================================================== *)
(** ** Node's [path] module, POSIX flavour *)
(* ===================================================================== *)

(** [path] is a collaborator of the program, not part of it.  The functions
    below give the results of [path.posix] on strings of one-byte
    characters, component by component. *)

Module NodePath.

Local Open Scope list_scope.
Local Open Scope nat_scope.

Abbreviation chars := (list ascii).

Definition is_slash (c : ascii) : bool := Ascii.eqb c "/".
Definition not_slash (c : ascii) : bool := negb (is_slash c).
Definition is_dot (c : ascii) : bool := Ascii.eqb c ".".

Fixpoint take_while (f : ascii -> bool) (l : chars) : chars :=
  match l with
  | c :: r => if f c then c :: take_while f r else []
  | [] => []
  end.

Fixpoint drop_while (f : ascii -> bool) (l : chars) : chars :=
  match l with
  | c :: r => if f c then drop_while f r else l
  | [] => []
  end.

Fixpoint chars_eqb (a b : chars) : bool :=
  match a, b with
  | [], [] => true
  | x :: a', y :: b' => Ascii.eqb x y && chars_eqb a' b'
  | _, _ => false
  end.

Fixpoint starts_with (pre l : chars) : bool :=
  match pre, l with
  | [], _ => true
  | x :: pre', y :: l' => Ascii.eqb x y && starts_with pre' l'
  | _ :: _, [] => false
  end.

Definition ends_with (suf l : chars) : bool := starts_with (rev suf) (rev l).

(** The slashes that end a path, and the component before them: the
    characters after the last slash that is not a trailing one. *)
Definition trailing_slashes (p : chars) : chars := take_while is_slash (rev p).

Definition last_component (p : chars) : chars :=
  rev (take_while not_slash (drop_while is_slash (rev p))).

Definition dotdot : chars := ["."; "."]%char.

(** [path.extname(p)]: from the last dot of the last component to its end;
    empty when there is no dot, when the only dot is the first character
    of the component, or when the component is [..]. *)
Definition extname_chars (p : chars) : chars :=
  let c := last_component p in
  let after := take_while (fun x => negb (is_dot x)) (rev c) in
  match drop_while (fun x => negb (is_dot x)) (rev c) with
  | [] => []
  | dot :: before =>
      match before with
      | [] => []
      | _ :: _ => if chars_eqb c dotdot then [] else dot :: rev after
      end
  end.

(** [path.basename(p, suffix)].  With a non-empty [suffix] no longer than
    [p]: the empty string if [suffix] is all of [p]; the last component
    without [suffix] if it ends with it and is not equal to it; and when
    the component runs out while it still matches the end of [suffix], the
    slice Node returns reaches the end of [p], trailing slashes
    included. *)
Definition basename_chars (p suffix : chars) : chars :=
  let c := last_component p in
  match suffix with
  | [] => c
  | _ :: _ =>
      if (length p <? length suffix)%nat then c
      else if chars_eqb suffix p then []
      else if ends_with suffix c then
        (if chars_eqb suffix c then c
         else firstn (length c - length suffix) c)
      else if ends_with c suffix then c ++ trailing_slashes p
      else c
  end.

(** [path.dirname(p)]: the first character is never inspected as a
    separator; what precedes the slash in front of the last component is
    returned as it is. *)
Definition dirname_chars (p : chars) : chars :=
  match p with
  | [] => ["."]%char
  | c0 :: rest =>
      let root := if is_slash c0 then ["/"]%char else ["."]%char in
      match drop_while not_slash (drop_while is_slash (rev rest)) with
      | [] => root
      | _slash :: before =>
          match before with
          | [] => if is_slash c0 then ["/"; "/"]%char else [c0]
          | _ :: _ => c0 :: rev before
          end
      end
  end.

(** Splitting at every slash: ["a//b"] gives ["a"; ""; "b"]. *)
Fixpoint split_slash (p : chars) : list chars :=
  match p with
  | [] => [[]]
  | c :: r =>
      if is_slash c then [] :: split_slash r
      else match split_slash r with
           | seg :: segs => (c :: seg) :: segs
           | [] => [[c]]
           end
  end.

(** One step of [normalizeString]: [stack] holds the segments kept so far,
    the most recent first. *)
Definition normalize_step (allowAboveRoot : bool)
    (stack : list chars) (seg : chars) : list chars :=
  if chars_eqb seg [] || chars_eqb seg ["."]%char then stack
  else if chars_eqb seg dotdot then
    match stack with
    | top :: below =>
        if chars_eqb top dotdot
        then (if allowAboveRoot then seg :: stack else stack)
        else below
    | [] => if allowAboveRoot then [seg] else []
    end
  else seg :: stack.

Fixpoint join_segments (segs : list chars) : chars :=
  match segs with
  | [] => []
  | [s] => s
  | s :: rest => s ++ "/"%char :: join_segments rest
  end.

Definition normalizeString (p : chars) (allowAboveRoot : bool) : chars :=
  join_segments (rev (fold_left (normalize_step allowAboveRoot) (split_slash p) [])).

Definition is_absolute (p : chars) : bool :=
  match p with c :: _ => is_slash c | [] => false end.

Definition has_trailing_slash (p : chars) : bool :=
  match rev p with c :: _ => is_slash c | [] => false end.

(** [path.normalize(p)] *)
Definition normalize_chars (p : chars) : chars :=
  match p with
  | [] => ["."]%char
  | _ :: _ =>
      let abs := is_absolute p in
      let trail := has_trailing_slash p in
      match normalizeString p (negb abs) with
      | [] => if abs then ["/"]%char
              else if trail then ["."; "/"]%char else ["."]%char
      | (_ :: _) as body =>
          let body' := if trail then body ++ ["/"]%char else body in
          if abs then "/"%char :: body' else body'
      end
  end.

(** [path.join(...args)]: the non-empty arguments, separated by slashes,
    then normalized; ["."] when nothing is left. *)
Definition join_chars (args : list chars) : chars :=
  match List.filter (fun a => negb (chars_eqb a [])) args with
  | [] => ["."]%char
  | (_ :: _) as parts => normalize_chars (join_segments parts)
  end.

Definition lower_ascii (c : ascii) : ascii :=
  let n := nat_of_ascii c in
  if ((65 <=? n) && (n <=? 90))%nat then ascii_of_nat (n + 32) else c.

Definition of_string : string -> chars := list_ascii_of_string.
Definition to_string : chars -> string := string_of_list_ascii.

Definition extname (p : string) : string := to_string (extname_chars (of_string p)).
Definition basename (p : string) (suffix : option string) : string :=
  to_string (basename_chars (of_string p)
               (match suffix with Some s => of_string s | None => [] end)).
Definition dirname (p : string) : string := to_string (dirname_chars (of_string p)).
Definition normalize (p : string) : string := to_string (normalize_chars (of_string p)).
Definition join (args : list string) : string :=
  to_string (join_chars (map of_string args)).

(** [String.prototype.toLowerCase] on one-byte characters. *)
Definition toLowerCase (s : string) : string :=
  to_string (map lower_ascii (of_string s)).

End NodePath.

(* ===================================================================== *)
(** ** Asynchronous computations and the collaborators they call *)
(* ===================================================================== *)

(** What a [throw] or a rejected promise carries: an [Error] object with
    its message, or some other value ([error instanceof Error] is false). *)
Inductive exn : Type :=
| JsError (message : string)
| NotAnError.

Inductive outcome (A : Type) : Type :=
| Ok (a : A)
| Thrown (e : exn).
Arguments Ok {A} a.
Arguments Thrown {A} e.

(** [format?: 'webp' | 'png' | 'jpg'] *)
Inductive ImageFormat : Type := webp | png | jpg.

Definition format_name (f : ImageFormat) : string :=
  match f with webp => "webp" | png => "png" | jpg => "jpg" end.

(** The encoder chosen on the [sharp] instance, with the options the code
    passes: [.webp({quality, effort})], [.png({compressionLevel})],
    [.jpeg({quality, mozjpeg})]. *)
Inductive encoder : Type :=
| EncWebp (quality : num) (effort : Z)
| EncPng (compressionLevel : num)
| EncJpeg (quality : num) (mozjpeg : bool).

(** [archive.file(source, { name })] *)
Record ArchiveEntry : Type := { entrySource : string; entryName : string }.

(** The calls a computation makes, in the order it makes them. *)
Inductive Event : Type :=
| EvAccess (p : string)
| EvStat (p : string)
| EvMkdir (p : string)
| EvToFile (input : string) (enc : encoder) (output : string)
| EvUnlink (p : string)
| EvConsoleError (subject : string)
| EvArchiveFile (e : ArchiveEntry)
| EvFinalize.

(** The outside world, of some type [W], and what each call does to it.
    [fs_stat] gives [stats.size]; [fs_mkdir] is called with
    [{ recursive: true }]; [sharp_toFile input enc output] stands for
    [sharp(input).<enc>.toFile(output)], encoder options checked by [sharp]
    included; [archive_finalize] for [archive.finalize()] on the entries
    queued so far. *)
Record Sys (W : Type) : Type := {
  fs_access : string -> W -> outcome unit * W;
  fs_stat : string -> W -> outcome N * W;
  fs_mkdir : string -> W -> outcome unit * W;
  fs_unlink : string -> W -> outcome unit * W;
  sharp_toFile : string -> encoder -> string -> W -> outcome unit * W;
  archive_finalize : list ArchiveEntry -> W -> outcome unit * W;
}.
Arguments fs_access {W} _ _ _.
Arguments fs_stat {W} _ _ _.
Arguments fs_mkdir {W} _ _ _.
Arguments fs_unlink {W} _ _ _.
Arguments sharp_toFile {W} _ _ _ _ _.
Arguments archive_finalize {W} _ _ _.

Record St (W : Type) : Type := { world : W; trace : list Event }.
Arguments world {W} _.
Arguments trace {W} _.

Definition M (W A : Type) : Type := St W -> outcome A * St W.

Definition ret {W A} (a : A) : M W A := fun st => (Ok a, st).

Definition throw {W A} (e : exn) : M W A := fun st => (Thrown e, st).

Definition bind {W A B} (m : M W A) (k : A -> M W B) : M W B :=
  fun st =>
    match m st with
    | (Ok a, st') => k a st'
    | (Thrown e, st') => (Thrown e, st')
    end.

(** [try { body } catch (e) { handler }] *)
Definition try_catch {W A} (body : M W A) (handler : exn -> M W A) : M W A :=
  fun st =>
    match body st with
    | (Ok a, st') => (Ok a, st')
    | (Thrown e, st') => handler e st'
    end.

(** A call to a collaborator: recorded, then left to the world. *)
Definition call {W A} (ev : Event) (f : W -> outcome A * W) : M W A :=
  fun st =>
    let (r, w') := f (world st) in
    (r, {| world := w'; trace := trace st ++ [ev] |}).

(** A call that has no result and cannot fail ([console.error],
    [archive.file]). *)
Definition emit {W} (ev : Event) : M W unit :=
  fun st => (Ok tt, {| world := world st; trace := trace st ++ [ev] |}).

Declare Scope js_scope.
Delimit Scope js_scope with js.
Notation "'let!' x ':=' m 'in' k" := (bind m (fun x => k))
  (at level 10, x name, m at level 100, k at level 200) : js_scope.
Local Open Scope js_scope.

(** [for (const x of xs) { ... }] over local variables [acc] that the body
    may update. *)
Fixpoint for_of {W X Acc} (xs : list X) (body : X -> Acc -> M W Acc)
    (acc : Acc) : M W Acc :=
  match xs with
  | [] => ret acc
  | x :: rest => let! acc' := body x acc in for_of rest body acc'
  end.

(** [if (c) { await m }] *)
Definition when {W} (c : bool) (m : M W unit) : M W unit :=
  if c then m else ret tt.

(** A string in a condition: the empty string is falsy. *)
Definition truthy (s : string) : bool := negb (String.eqb s "").

(* ===================================================================== *)
(** ** [src/optimizer.ts] *)
(* ===================================================================== *)

(** An absent property ([undefined]) is [None]. *)
Record OptimizeOptions : Type := {
  quality : option num;
  outputDir : option string;
  keepOriginal : option bool;
  format : option ImageFormat;
}.

Record OptimizeResult : Type := {
  inputPath : string;
  outputPath : string;
  originalSize : N;
  optimizedSize : N;
  reduction : num;
  success : bool;
  error : option string;
}.

(** [{}], the default value of the [options] parameter. *)
Definition no_options : OptimizeOptions :=
  {| quality := None; outputDir := None; keepOriginal := None; format := None |}.

(** [error instanceof Error ? error.message : 'Erro desconhecido'] *)
Definition error_message (e : exn) : string :=
  match e with
  | JsError m => m
  | NotAnError => "Erro desconhecido"
  end.

(** The object returned by the [catch] block of [optimizeImage]. *)
Definition failureResult (input : string) (e : exn) : OptimizeResult :=
  {| inputPath := input;
     outputPath := "";
     originalSize := 0;
     optimizedSize := 0;
     reduction := of_Z 0;
     success := false;
     error := Some (error_message e) |}.

(** [format === 'jpg' ? 'jpg' : format] *)
Definition outputExtension (f : ImageFormat) : string :=
  match f with
  | jpg => "jpg"
  | other => format_name other
  end.

(** [Math.min(9, Math.max(0, Math.round((100 - quality) / 11.11)))] *)
Definition compressionLevel (q : num) : num :=
  JsNum.min (of_Z 9)
    (JsNum.max (of_Z 0)
       (JsNum.round (JsNum.div (JsNum.sub (of_Z 100) q) (Fin (1111 # 100))))).

(** The encoder selected by the chain of [if (format === ...)]. *)
Definition encoderFor (f : ImageFormat) (q : num) : encoder :=
  match f with
  | webp => EncWebp q 6
  | png => EncPng (compressionLevel q)
  | jpg => EncJpeg q true
  end.

(** [((originalSize - optimizedSize) / originalSize) * 100] *)
Definition rawReduction (original optimized : N) : num :=
  JsNum.mul
    (JsNum.div (JsNum.sub (of_N original) (of_N optimized)) (of_N original))
    (of_Z 100).

(** [Math.round(reduction * 100) / 100] *)
Definition round2 (r : num) : num :=
  JsNum.div (JsNum.round (JsNum.mul r (of_Z 100))) (of_Z 100).

(** [outputDir ? path.join(outputDir, file) : path.join(inputDir, file)] *)
Definition outputPathFor (input : string) (dir : option string)
    (f : ImageFormat) : string :=
  let inputDir := NodePath.dirname input in
  let inputName := NodePath.basename input (Some (NodePath.extname input)) in
  let file := inputName ++ "." ++ outputExtension f in
  match dir with
  | Some d => if truthy d then NodePath.join [d; file]
              else NodePath.join [inputDir; file]
  | None => NodePath.join [inputDir; file]
  end.

(** [!keepOriginal && inputExt !== outputExt] *)
Definition deletesOriginal (input : string) (keep : bool)
    (f : ImageFormat) : bool :=
  let inputExt := NodePath.toLowerCase (NodePath.extname input) in
  let outputExt := "." ++ outputExtension f in
  negb keep && negb (String.eqb inputExt outputExt).

Section Optimizer.

Context {W : Type} (S : Sys W).

Definition access (p : string) : M W unit := call (EvAccess p) (fs_access S p).
Definition stat_size (p : string) : M W N := call (EvStat p) (fs_stat S p).
Definition mkdir_recursive (p : string) : M W unit := call (EvMkdir p) (fs_mkdir S p).
Definition unlink (p : string) : M W unit := call (EvUnlink p) (fs_unlink S p).
Definition toFile (input : string) (enc : encoder) (output : string) : M W unit :=
  call (EvToFile input enc output) (sharp_toFile S input enc output).

(** [if (outputDir) { await fs.mkdir(outputDir, { recursive: true }) }] *)
Definition ensureOutputDir (dir : option string) : M W unit :=
  match dir with
  | Some d => when (truthy d) (mkdir_recursive d)
  | None => ret tt
  end.

(** The [try] block of [optimizeImage]. *)
Definition optimizeImage_try (input : string) (q : num) (dir : option string)
    (keep : bool) (f : ImageFormat) : M W OptimizeResult :=
  let! _ := access input in
  let! original := stat_size input in
  let output := outputPathFor input dir f in
  let! _ := ensureOutputDir dir in
  let! _ := toFile input (encoderFor f q) output in
  let! optimized := stat_size output in
  let r := rawReduction original optimized in
  let! _ := when (deletesOriginal input keep f) (unlink input) in
  ret {| inputPath := input;
         outputPath := output;
         originalSize := original;
         optimizedSize := optimized;
         reduction := round2 r;
         success := true;
         error := None |}.

Definition optimizeImage (input : string) (options : OptimizeOptions)
    : M W OptimizeResult :=
  let q := default (of_Z 75) (quality options) in
  let dir := outputDir options in
  let keep := default false (keepOriginal options) in
  let f := default webp (format options) in
  try_catch (optimizeImage_try input q dir keep f)
    (fun e => ret (failureResult input e)).

(** [optimizeBatch]: [results] is the local array the loop pushes to. *)
Definition optimizeBatch (inputPaths : list string) (options : OptimizeOptions)
    : M W (list OptimizeResult) :=
  for_of inputPaths
    (fun input results =>
       let! result := optimizeImage input options in
       ret (results ++ [result])%list)
    [].

End Optimizer.

(* ===================================================================== *)
(** ** A simulated world *)
(* ===================================================================== *)

(** One instance of [Sys], for running the program on examples: the regular
    files of a file system with their sizes, and a codec given as a
    function from the source path, its size and the encoder to the size of
    the image written, or to an error. *)
Module Sim.

Abbreviation files := (gmap string N).

Definition enoent {A} (syscall p : string) : outcome A :=
  Thrown (JsError ("ENOENT: no such file or directory, " ++ syscall ++ " '" ++ p ++ "'")).

Definition sim_access (p : string) (w : files) : outcome unit * files :=
  match w !! p with
  | Some _ => (Ok tt, w)
  | None => (enoent "access" p, w)
  end.

Definition sim_stat (p : string) (w : files) : outcome N * files :=
  match w !! p with
  | Some n => (Ok n, w)
  | None => (enoent "stat" p, w)
  end.

Definition sim_mkdir (p : string) (w : files) : outcome unit * files := (Ok tt, w).

Definition sim_unlink (p : string) (w : files) : outcome unit * files :=
  match w !! p with
  | Some _ => (Ok tt, delete p w)
  | None => (enoent "unlink" p, w)
  end.

Definition sim_toFile (codec : string -> N -> encoder -> outcome N)
    (input : string) (enc : encoder) (output : string) (w : files)
    : outcome unit * files :=
  match w !! input with
  | None => (Thrown (JsError ("Input file is missing: " ++ input)), w)
  | Some n =>
      match codec input n enc with
      | Ok m => (Ok tt, <[output := m]> w)
      | Thrown e => (Thrown e, w)
      end
  end.

Definition sim_finalize (entries : list ArchiveEntry) (w : files)
    : outcome unit * files := (Ok tt, w).

Definition sys (codec : string -> N -> encoder -> outcome N) : Sys files :=
  {| fs_access := sim_access;
     fs_stat := sim_stat;
     fs_mkdir := sim_mkdir;
     fs_unlink := sim_unlink;
     sharp_toFile := sim_toFile codec;
     archive_finalize := sim_finalize |}.

(** A codec that halves every image, whatever the encoder. *)
Definition halving (input : string) (n : N) (enc : encoder) : outcome N :=
  Ok (n / 2)%N.

(** A codec that accepts nothing. *)
Definition refusing (input : string) (n : N) (enc : encoder) : outcome N :=
  Thrown (JsError "Input file contains unsupported image format").

Definition start (w : files) : St files := {| world := w; trace := [] |}.

Definition disk (l : list (string * N)) : files := list_to_map l.

End Sim.

(* ===================================================================== *)
(** ** What the two HTTP handlers share *)
(* ===================================================================== *)

(** [{ file, error }], an element of [details]. *)
Record ErrorDetail : Type := { detailFile : string; detailError : string }.

(** The JSON objects the handlers send; an absent key is [None]. *)
Record JsonBody : Type := {
  bodyError : string;
  bodyMessage : option string;
  bodyDetails : option (list ErrorDetail);
}.

Inductive Response : Type :=
| RespJson (status : Z) (body : JsonBody)
| RespZip (entries : list ArchiveEntry).

(** [parseInt(s, 10)]: white space, a sign, then decimal digits; [NaN] when
    there is no digit. *)
Module ParseInt.

Definition is_space (c : ascii) : bool :=
  let n := nat_of_ascii c in
  ((n =? 32) || ((9 <=? n) && (n <=? 13)))%nat.

Definition digit (c : ascii) : option Z :=
  let n := nat_of_ascii c in
  if ((48 <=? n) && (n <=? 57))%nat then Some (Z.of_nat n - 48) else None.

Fixpoint digits (cs : list ascii) (acc : option Z) : option Z :=
  match cs with
  | c :: r =>
      match digit c with
      | Some d => digits r (Some (10 * default 0 acc + d))
      | None => acc
      end
  | [] => acc
  end.

Definition parseInt10 (s : string) : num :=
  let cs := NodePath.drop_while is_space (list_ascii_of_string s) in
  let '(negative, cs) :=
    match cs with
    | "-"%char :: r => (true, r)
    | "+"%char :: r => (false, r)
    | _ => (false, cs)
    end in
  match digits cs None with
  | Some v => of_Z (if negative then - v else v)
  | None => NaN
  end.

End ParseInt.

(** [s || d] on an optional string: [undefined] and [''] give [d]. *)
Definition or_default (s : option string) (d : string) : string :=
  match s with
  | Some v => if truthy v then v else d
  | None => d
  end.

(** [{ file: r.inputPath, error: r.error || 'Erro desconhecido' }] *)
Definition detailOf (r : OptimizeResult) : ErrorDetail :=
  {| detailFile := inputPath r;
     detailError := or_default (error r) "Erro desconhecido" |}.

Definition noFilesBody : JsonBody :=
  {| bodyError := "Nenhuma imagem foi enviada";
     bodyMessage := None;
     bodyDetails := None |}.

Definition noSuccessBody (results : list OptimizeResult) : JsonBody :=
  {| bodyError := "Nenhuma imagem foi processada com sucesso";
     bodyMessage := None;
     bodyDetails := Some (map detailOf results) |}.

Definition entryFor (filePath : string) : ArchiveEntry :=
  {| entrySource := filePath; entryName := NodePath.basename filePath None |}.

Section Archive.

Context {W : Type} (S : Sys W).

(** [try { await fs.unlink(p) } catch { }] and [fs.unlink(p).catch(() => {})] *)
Definition unlink_quietly (p : string) : M W unit :=
  try_catch (unlink S p) (fun _ => ret tt).

(** The loop both handlers run over [optimizedFiles]; [archive] is the
    list of entries queued on the archiver. *)
Definition addFilesToArchive (optimizedFiles : list string)
    : M W (list ArchiveEntry) :=
  for_of optimizedFiles
    (fun filePath archive =>
       try_catch
         (let! _ := access S filePath in
          let entry := entryFor filePath in
          let! _ := emit (EvArchiveFile entry) in
          ret (archive ++ [entry])%list)
         (fun _ =>
            let! _ := emit (EvConsoleError filePath) in
            ret archive))
    [].

End Archive.

(* ===================================================================== *)
(** ** [src/index.ts]: the Express route [POST /optimize] *)
(* ===================================================================== *)

(** [console.log] is not recorded; [console.error] is.  The form field
    [format] holds one of the three names, as the cast in the route
    asserts.  The route is followed up to the call of [archive.finalize()]:
    the response that carries the archive is written later by the
    callbacks of the output stream, which are outside this model. *)
Module Express.

(** An element of [req.files], as [multer] leaves it. *)
Record MulterFile : Type := { path : string; originalname : string }.

Record Request : Type := {
  body_quality : option string;
  body_format : option ImageFormat;
  body_keepOriginal : option string;
  files : option (list MulterFile);
}.

Inductive Outcome : Type :=
| Responded (r : Response)
| Streaming (zipPath : string) (entries : list ArchiveEntry).

Section Route.

Context {W : Type} (S : Sys W).
(** [tempDir] is [path.join(__dirname, '../temp')]; [now] is
    [Date.now()] in decimal. *)
Context (tempDir now : string).

Definition uploadOptions (q : num) (f : ImageFormat) : OptimizeOptions :=
  {| quality := Some q;
     format := Some f;
     outputDir := Some tempDir;
     keepOriginal := Some false |}.

(** The body of [for (const file of files)]; the locals are [results]
    and [optimizedFiles].  Nothing that follows [results.push(result)]
    in the [try] block can throw, so the [catch] block finds the two
    arrays as they were when the iteration began. *)
Definition processFile (q : num) (f : ImageFormat) (file : MulterFile)
    (acc : list OptimizeResult * list string)
    : M W (list OptimizeResult * list string) :=
  let '(results, optimizedFiles) := acc in
  try_catch
    (let! result := optimizeImage S (path file) (uploadOptions q f) in
     let results := (results ++ [result])%list in
     let! optimizedFiles :=
       if success result
       then ret (optimizedFiles ++ [outputPath result])%list
       else (let! _ := emit (EvConsoleError (originalname file)) in
             ret optimizedFiles) in
     let! _ := unlink_quietly S (path file) in
     ret (results, optimizedFiles))
    (fun e =>
       let! _ := emit (EvConsoleError (originalname file)) in
       let results := (results ++ [failureResult (path file) e])%list in
       let! _ := unlink_quietly S (path file) in
       ret (results, optimizedFiles)).

Definition processUploads (q : num) (f : ImageFormat)
    (uploads : list MulterFile)
    : M W (list OptimizeResult * list string) :=
  for_of uploads (processFile q f) ([], []).

(** The outer [catch] block.  The only call of the [try] block that can
    throw is [fs.mkdir], made before the loop, so [results] is empty
    there and the second clean-up loop has nothing to do. *)
Definition cleanupAndFail (uploads : list MulterFile) (zipPath : string)
    (e : exn) : M W Outcome :=
  let! _ := for_of uploads
              (fun file (_ : unit) => unlink_quietly S (path file)) tt in
  let! _ := unlink_quietly S zipPath in
  let! _ := emit (EvConsoleError "Erro ao processar imagens:") in
  ret (Responded (RespJson 500
         {| bodyError := "Erro ao processar imagens";
            bodyMessage := Some (error_message e);
            bodyDetails := None |})).

(** The archive is filled and [archive.finalize()] is called; what the
    output stream does next is not followed. *)
Definition startArchive (zipPath : string) (optimizedFiles : list string)
    : M W Outcome :=
  let! entries := addFilesToArchive S optimizedFiles in
  let! _ := emit EvFinalize in
  ret (Streaming zipPath entries).

(** What follows the loop: [if (optimizedFiles.length === 0)] and the rest. *)
Definition respondOrArchive (zipPath : string)
    (acc : list OptimizeResult * list string) : M W Outcome :=
  let '(results, optimizedFiles) := acc in
  match optimizedFiles with
  | [] => ret (Responded (RespJson 400 (noSuccessBody results)))
  | _ :: _ => startArchive zipPath optimizedFiles
  end.

(** The outer [try] block. *)
Definition optimizeRoute_try (q : num) (f : ImageFormat)
    (uploads : list MulterFile) (zipPath : string) : M W Outcome :=
  let! _ := mkdir_recursive S tempDir in
  let! acc := processUploads q f uploads in
  respondOrArchive zipPath acc.

Definition optimizeRoute (req : Request) : M W Outcome :=
  let q := ParseInt.parseInt10 (or_default (body_quality req) "75") in
  let f := default webp (body_format req) in
  match files req with
  | None | Some [] => ret (Responded (RespJson 400 noFilesBody))
  | Some uploads =>
      let zipPath := NodePath.join [tempDir; "optimized-" ++ now ++ ".zip"] in
      try_catch (optimizeRoute_try q f uploads zipPath)
        (cleanupAndFail uploads zipPath)
  end.

End Route.

End Express.

(* ===================================================================== *)
(** ** [api/optimize.ts]: the serverless handler *)
(* ===================================================================== *)

(** The request carries what [form.parse] yields for it, fields and files
    or an error.  The wait for the [end] event of the archive is taken to
    complete once [archive.finalize()] has. *)
Module Serverless.

(** A file as [formidable] leaves it; [path] is the older name of
    [filepath]. *)
Record FormidableFile : Type := {
  filepath : option string;
  path : option string;
  originalFilename : option string;
}.

(** [files.images]: absent, one file, or an array. *)
Inductive ImagesField : Type :=
| NoImages
| OneImage (file : FormidableFile)
| ManyImages (l : list FormidableFile).

Record Form : Type := {
  fields_quality : option (list string);
  fields_format : option (list ImageFormat);
  images : ImagesField;
}.

Record Request : Type := { method : string; parsed : outcome Form }.

Definition tempDir : string := "/tmp/optimize".

(** [Array.isArray(files.images) ? files.images
     : files.images ? [files.images] : []] *)
Definition fileArray (i : ImagesField) : list FormidableFile :=
  match i with
  | ManyImages l => l
  | OneImage file => [file]
  | NoImages => []
  end.

Definition truthy_opt (s : option string) : option string :=
  match s with
  | Some v => if truthy v then Some v else None
  | None => None
  end.

(** [file.filepath || file.path], [None] when the result is falsy. *)
Definition filePathOf (file : FormidableFile) : option string :=
  match truthy_opt (filepath file) with
  | Some p => Some p
  | None => truthy_opt (path file)
  end.

(** [(fields.quality as string)?.[0]] *)
Definition first_value {A} (field : option (list A)) : option A :=
  match field with
  | Some (v :: _) => Some v
  | _ => None
  end.

Section Handler.

Context {W : Type} (S : Sys W).

Definition uploadOptions (q : num) (f : ImageFormat) : OptimizeOptions :=
  {| quality := Some q;
     format := Some f;
     outputDir := Some tempDir;
     keepOriginal := Some false |}.

(** The body of [for (const file of fileArray)]. *)
Definition processFile (q : num) (f : ImageFormat) (file : FormidableFile)
    (acc : list OptimizeResult * list string)
    : M W (list OptimizeResult * list string) :=
  let '(results, optimizedFiles) := acc in
  match filePathOf file with
  | None => ret acc
  | Some filePath =>
      try_catch
        (let! result := optimizeImage S filePath (uploadOptions q f) in
         let results := (results ++ [result])%list in
         let optimizedFiles :=
           if success result
           then (optimizedFiles ++ [outputPath result])%list
           else optimizedFiles in
         let! _ := unlink_quietly S filePath in
         ret (results, optimizedFiles))
        (fun e =>
           let! _ := emit (EvConsoleError
                             (default "undefined" (originalFilename file))) in
           ret ((results ++ [failureResult filePath e])%list, optimizedFiles))
  end.

Definition processUploads (q : num) (f : ImageFormat)
    (uploads : list FormidableFile)
    : M W (list OptimizeResult * list string) :=
  for_of uploads (processFile q f) ([], []).

Definition finalize (entries : list ArchiveEntry) : M W unit :=
  call EvFinalize (archive_finalize S entries).

Definition lift {A} (o : outcome A) : M W A :=
  match o with
  | Ok a => ret a
  | Thrown e => throw e
  end.

(** The archive is filled, finalized, the optimized files are removed and
    the archive is sent. *)
Definition deliverArchive (optimizedFiles : list string) : M W Response :=
  let! entries := addFilesToArchive S optimizedFiles in
  let! _ := finalize entries in
  let! _ := for_of optimizedFiles
              (fun filePath (_ : unit) => unlink_quietly S filePath) tt in
  ret (RespZip entries).

(** What follows the loop: [if (optimizedFiles.length === 0)] and the rest. *)
Definition respondOrArchive (acc : list OptimizeResult * list string)
    : M W Response :=
  let '(results, optimizedFiles) := acc in
  match optimizedFiles with
  | [] => ret (RespJson 400 (noSuccessBody results))
  | _ :: _ => deliverArchive optimizedFiles
  end.

(** What follows the parsing of the form. *)
Definition handleForm (form : Form) : M W Response :=
  let q := ParseInt.parseInt10
             (or_default (first_value (fields_quality form)) "75") in
  let f := default webp (first_value (fields_format form)) in
  match fileArray (images form) with
  | [] => ret (RespJson 400 noFilesBody)
  | (_ :: _) as uploads =>
      let! acc := processUploads q f uploads in
      respondOrArchive acc
  end.

(** The [try] block. *)
Definition handler_try (req : Request) : M W Response :=
  let! _ := mkdir_recursive S tempDir in
  let! form := lift (parsed req) in
  handleForm form.

Definition handler (req : Request) : M W Response :=
  if negb (String.eqb (method req) "POST") then
    ret (RespJson 405
           {| bodyError := "Method not allowed";
              bodyMessage := None;
              bodyDetails := None |})
  else
    try_catch (handler_try req)
      (fun e =>
         let! _ := emit (EvConsoleError "Erro ao processar imagens:") in
         ret (RespJson 500
                {| bodyError := "Erro ao processar imagens";
                   bodyMessage := Some (error_message e);
                   bodyDetails := None |})).

End Handler.

End Serverless.

(* ===================================================================== *)
(** ** [findImagesInDirectory] *)
(* ===================================================================== *)

Module Scan.

(** An entry of [fs.readdir(dir, { withFileTypes: true })], together with
    what reading it in turn would give.  [Directory] and [Unreadable]
    answer [true] to [isDirectory()], [File] to [isFile()], [Other] (a
    symbolic link, a socket, ...) to neither; [readdir] throws [e] on
    [Unreadable _ e]. *)
Inductive Dirent : Type :=
| File (name : string)
| Directory (name : string) (entries : list Dirent)
| Unreadable (name : string) (e : exn)
| Other (name : string).

Definition supportedExtensions : list string :=
  [".png"; ".jpg"; ".jpeg"; ".webp"].

(** [Array.prototype.includes] on strings *)
Definition includes (l : list string) (s : string) : bool :=
  existsb (String.eqb s) l.

(** [supportedExtensions.includes(path.extname(name).toLowerCase())] *)
Definition isImageName (name : string) : bool :=
  includes supportedExtensions (NodePath.toLowerCase (NodePath.extname name)).

(** The body of the loop of [scanDirectory], and the loop itself;
    [images] is the array of the enclosing function. *)
Fixpoint scanEntry (recursive : bool) (currentPath : string)
    (entry : Dirent) (images : list string) {struct entry}
    : outcome (list string) :=
  match entry with
  | Directory name entries =>
      if recursive then
        (fix scanEntries (es : list Dirent) (images : list string)
           : outcome (list string) :=
           match es with
           | [] => Ok images
           | e :: rest =>
               match scanEntry recursive
                       (NodePath.join [currentPath; name]) e images with
               | Ok images' => scanEntries rest images'
               | Thrown x => Thrown x
               end
           end) entries images
      else Ok images
  | Unreadable name e =>
      if recursive then Thrown e else Ok images
  | File name =>
      if isImageName name
      then Ok (images ++ [NodePath.join [currentPath; name]])%list
      else Ok images
  | Other name => Ok images
  end.

Fixpoint scanEntries (recursive : bool) (currentPath : string)
    (es : list Dirent) (images : list string) : outcome (list string) :=
  match es with
  | [] => Ok images
  | e :: rest =>
      match scanEntry recursive currentPath e images with
      | Ok images' => scanEntries recursive currentPath rest images'
      | Thrown x => Thrown x
      end
  end.

(** [findImagesInDirectory(dirPath, recursive)], where [listing] is what
    [readdir(dirPath)] gives. *)
Definition findImagesInDirectory (dirPath : string)
    (listing : outcome (list Dirent)) (recursive : bool)
    : outcome (list string) :=
  match listing with
  | Ok entries => scanEntries recursive dirPath entries []
  | Thrown e => Thrown e
  end.

End Scan.

(* ===================================================================== *)
(** ** [formatBytes] *)
(* ===================================================================== *)

Module Format.

Definition sizes : list string := ["Bytes"; "KB"; "MB"; "GB"].

(** [Math.floor(Math.log(bytes) / Math.log(1024))] for an integer
    [bytes >= 1]: the largest [i] with [1024 ^ i <= bytes]. *)
Definition unitIndex (bytes : N) : nat := N.to_nat (N.log2 bytes / 10).

Definition decimal (n : N) : string := NilZero.string_of_uint (N.to_uint n).

(** The text of a number [hundredths / 100] that is not negative: at most
    two decimals, none of them a trailing zero. *)
Definition hundredths_to_string (hundredths : N) : string :=
  let whole := (hundredths / 100)%N in
  let frac := (hundredths mod 100)%N in
  if (frac =? 0)%N then decimal whole
  else if (frac mod 10 =? 0)%N then decimal whole ++ "." ++ decimal (frac / 10)
  else if (frac <? 10)%N then decimal whole ++ ".0" ++ decimal frac
  else decimal whole ++ "." ++ decimal frac.

(** [Math.round((bytes / Math.pow(k, i)) * 100)] *)
Definition scaled (bytes : N) (i : nat) : N :=
  Z.to_N (round_Q ((Z.of_N bytes # 1) / (1024 ^ Z.of_nat i # 1) * (100 # 1))).

(** [sizes[i]] in a string concatenation: [undefined] past the end. *)
Definition unitName (i : nat) : string :=
  match sizes !! i with
  | Some u => u
  | None => "undefined"
  end.

Definition formatBytes (bytes : N) : string :=
  if (bytes =? 0)%N then "0 Bytes"
  else
    let i := unitIndex bytes in
    hundredths_to_string (scaled bytes i) ++ " " ++ unitName i.

End Format.

(* ===================================================================== *)
(** ** Vocabulary of the properties *)
(* ===================================================================== *)

Definition mkdirEvents (dir : option string) : list Event :=
  match dir with
  | Some d => if truthy d then [EvMkdir d] else []
  | None => []
  end.

(** The calls of a run of [optimizeImage] that reaches its [return] in the
    [try] block, in order. *)
Definition successEvents (input : string) (q : num) (dir : option string)
    (keep : bool) (f : ImageFormat) : list Event :=
  ([EvAccess input; EvStat input]
   ++ mkdirEvents dir
   ++ [EvToFile input (encoderFor f q) (outputPathFor input dir f);
       EvStat (outputPathFor input dir f)]
   ++ (if deletesOriginal input keep f then [EvUnlink input] else []))%list.







(** The options after the defaults of the destructuring have been applied. *)
Definition chosenQuality (options : OptimizeOptions) : num :=
  default (of_Z 75) (quality options).
Definition chosenFormat (options : OptimizeOptions) : ImageFormat :=
  default webp (format options).

(** The paths of [files] that [fs.access] accepts when they are checked one
    after the other from the world [w]. *)
Fixpoint stillThere {W} (S : Sys W) (files : list string) (w : W) : list string :=
  match files with
  | [] => []
  | p :: rest =>
      match fs_access S p w with
      | (Ok _, w') => p :: stillThere S rest w'
      | (Thrown _, w') => stillThere S rest w'
      end
  end.

(** The world these checks leave. *)
Fixpoint afterChecks {W} (S : Sys W) (files : list string) (w : W) : W :=
  match files with
  | [] => w
  | p :: rest => afterChecks S rest (snd (fs_access S p w))
  end.

(** What the archive loop is expected to do for each of [files]: check it,
    then queue it under its base name, or report it. *)
Fixpoint archiveEvents {W} (S : Sys W) (files : list string) (w : W) : list Event :=
  match files with
  | [] => []
  | p :: rest =>
      match fs_access S p w with
      | (Ok _, w') =>
          EvAccess p :: EvArchiveFile (entryFor p) :: archiveEvents S rest w'
      | (Thrown _, w') =>
          EvAccess p :: EvConsoleError p :: archiveEvents S rest w'
      end
  end.

(** The events that touch an archive. *)
Definition isArchiveEvent (ev : Event) : bool :=
  match ev with
  | EvArchiveFile _ | EvFinalize => true
  | _ => false
  end.

(** An event that does not touch an archive. *)
Definition quiet (ev : Event) : Prop := isArchiveEvent ev = false.

(** Every run of [m] only adds events that satisfy [P] to the trace. *)
Definition emits {W A} (P : Event -> Prop) (m : M W A) : Prop :=
  forall st r st', m st = (r, st') ->
    exists evs, trace st' = (trace st ++ evs)%list /\ Forall P evs.

(** The extension of [name], lowercased, is one of the four supported. *)
Definition hasImageExtension (name : string) : Prop :=
  In (NodePath.toLowerCase (NodePath.extname name)) [".png"; ".jpg"; ".jpeg"; ".webp"].

(** [Found recursive dir e p]: [p] is the full path of a regular file with
    an image extension, which is the entry [e] of the directory [dir]
    itself or, when [recursive] holds, lies somewhere below [e]. *)
Inductive Found (recursive : bool) : string -> Scan.Dirent -> string -> Prop :=
| FoundFile (dir name : string) :
    hasImageExtension name ->
    Found recursive dir (Scan.File name) (NodePath.join [dir; name])
| FoundBelow (dir name : string) (entries : list Scan.Dirent)
    (e : Scan.Dirent) (p : string) :
    recursive = true ->
    In e entries ->
    Found recursive (NodePath.join [dir; name]) e p ->
    Found recursive dir (Scan.Directory name entries) p.

(** The image files among the entries of [dir] themselves, in order. *)
Definition topLevelImages (dir : string) (entries : list Scan.Dirent) : list string :=
  flat_map
    (fun e =>
       match e with
       | Scan.File name =>
           if Scan.isImageName name then [NodePath.join [dir; name]] else []
       | _ => []
       end) entries.

(** No directory in or below [e] refuses to be read. *)
Fixpoint readable (e : Scan.Dirent) : bool :=
  match e with
  | Scan.Directory _ entries => forallb readable entries
  | Scan.Unreadable _ _ => false
  | _ => true
  end.

(** Whatever one iteration of the scan over [e] adds to [images] is what
    [Found] describes. *)
Definition scan_sound (e : Scan.Dirent) : Prop :=
  forall recursive cur images images',
    Scan.scanEntry recursive cur e images = Ok images' ->
    exists new, images' = (images ++ new)%list /\
      forall p, In p new <-> Found recursive cur e p.

(* ===================================================================== *)
(** ** Further vocabulary *)
(* ===================================================================== *)

(** What a run of [optimizeImage] on [input] may do to the file system:
    check and measure [input] and the output path, create [outputDir],
    have [sharp] read [input] and write the output path, unlink [input]. *)
Definition ownCall (input : string) (options : OptimizeOptions) (ev : Event) : Prop :=
  match ev with
  | EvAccess p => p = input
  | EvStat p =>
      p = input \/ p = outputPathFor input (outputDir options) (chosenFormat options)
  | EvMkdir d => outputDir options = Some d
  | EvToFile i enc o =>
      i = input /\
      enc = encoderFor (chosenFormat options) (chosenQuality options) /\
      o = outputPathFor input (outputDir options) (chosenFormat options)
  | EvUnlink p => p = input
  | EvConsoleError _ | EvArchiveFile _ | EvFinalize => False
  end.

(** A second simulated world: the same files, but [fs.unlink] is refused
    on every path (a directory the process may not write to). *)
Definition sim_unlink_denied (p : string) (w : gmap string N)
    : outcome unit * gmap string N :=
  (Thrown (JsError ("EACCES: permission denied, unlink '" ++ p ++ "'")), w).

Definition sys_readonly (codec : string -> N -> encoder -> outcome N)
    : Sys (gmap string N) :=
  {| fs_access := Sim.sim_access;
     fs_stat := Sim.sim_stat;
     fs_mkdir := Sim.sim_mkdir;
     fs_unlink := sim_unlink_denied;
     sharp_toFile := Sim.sim_toFile codec;
     archive_finalize := Sim.sim_finalize |}.

(** A call that a batch over [inputs] may make: one that a run of
    [optimizeImage] on one of them may make. *)
Definition batchCall (inputs : list string) (options : OptimizeOptions)
    (ev : Event) : Prop :=
  exists input, In input inputs /\ ownCall input options ev.

(* ===================================================================== *)
(** ** [src/index.ts]: the upload filter and the upload error middleware *)
(* ===================================================================== *)

Module Upload.

(** [needle] occurs somewhere in [hay]. *)
Fixpoint contains (needle hay : list ascii) : bool :=
  NodePath.starts_with needle hay
  || match hay with
     | [] => false
     | _ :: rest => contains needle rest
     end.

(** [/jpeg|jpg|png|webp/.test(s)]: the expression is not anchored, so it
    holds as soon as one of the four words occurs in [s]. *)
Definition allowedTypes_test (s : string) : bool :=
  existsb (fun word => contains (list_ascii_of_string word) (list_ascii_of_string s))
    ["jpeg"; "jpg"; "png"; "webp"].

Definition rejection : string :=
  "Apenas imagens PNG, JPEG, JPG e WebP são permitidas!".

(** [fileFilter]: [Ok true] is [cb(null, true)], [Thrown] is [cb(new
    Error(...))]. *)
Definition fileFilter (originalname mimetype : string) : outcome bool :=
  let extname :=
    allowedTypes_test (NodePath.toLowerCase (NodePath.extname originalname)) in
  let mimetype := allowedTypes_test mimetype in
  if mimetype && extname then Ok true
  else Thrown (JsError rejection).

(** The [type] test of the browser form ([handleFiles] of [App.tsx]). *)
Definition validTypes : list string :=
  ["image/png"; "image/jpeg"; "image/jpg"; "image/webp"].

Definition formAccepts (type : string) : bool := Scan.includes validTypes type.

(** What reaches the error middleware: a [multer.MulterError] with its
    code and message, or another value with its [message] property, if it
    has one. *)
Inductive UploadError : Type :=
| MulterError (code message : string)
| OtherError (message : option string).

Inductive Handled : Type :=
| Sent (r : Response)
| Next.

Definition errorOnly (text : string) : JsonBody :=
  {| bodyError := text; bodyMessage := None; bodyDetails := None |}.

(** [handleMulterError(err, req, res, next)]; [None] is a falsy [err]. *)
Definition handleMulterError (err : option UploadError) : Handled :=
  match err with
  | Some (MulterError code message) =>
      if String.eqb code "LIMIT_FILE_SIZE"
      then Sent (RespJson 400 (errorOnly "Arquivo muito grande. Tamanho máximo: 50MB"))
      else Sent (RespJson 400 (errorOnly ("Erro no upload: " ++ message)))
  | Some (OtherError message) =>
      Sent (RespJson 400
              (errorOnly (or_default message "Erro ao fazer upload do arquivo")))
  | None => Next
  end.

(** The error [fileFilter] hands to its callback, as the middleware sees
    it. *)
Definition asUploadError (e : exn) : UploadError :=
  match e with
  | JsError m => OtherError (Some m)
  | NotAnError => OtherError None
  end.

End Upload.

(* ===================================================================== *)
(** ** [src/index.ts]: the command [optimize <input>] *)
(* ===================================================================== *)

(** The action of the command.  It is given what [fs.stat(input)] answers
    and, for a directory, what reading it gives (as in [Scan]); the calls
    of [optimizeImage] go to [Sys] as before.  It yields the lines it
    prints, [console.log] and [console.error] apart, and the way it ends:
    [process.exit(code)] or a plain return.  The numbers it prints with
    [${...}] are whole numbers of hundredths, [NaN] or an infinity. *)
Module Cli.














Section Action.

Context {W : Type} (S : Sys W).



End Action.

End Cli.




(* ===================================================================== *)
(** ** The model of [path] on the examples of Node's documentation *)
(* ===================================================================== *)

Example extname_examples :
  map NodePath.extname
    ["index.html"; "index.coffee.md"; "index."; "index"; ".index"; ".index.md";
     ".."; "a/b.c/"; "PHOTO.JPG"; ""]
  = [".html"; ".md"; "."; ""; ""; ".md"; ""; ".c"; ".JPG"; ""].
Proof. reflexivity. Qed.

Example basename_examples :
  NodePath.basename "/foo/bar/baz/asdf/quux.html" None = "quux.html" /\
  NodePath.basename "/foo/bar/baz/asdf/quux.html" (Some ".html") = "quux" /\
  NodePath.basename "/tmp/optimize/" None = "optimize" /\
  NodePath.basename "pics/a.PNG" (Some ".PNG") = "a" /\
  NodePath.basename ".png" (Some "") = ".png".
Proof. repeat split; reflexivity. Qed.

Example dirname_examples :
  map NodePath.dirname ["/foo/bar/baz/asdf/quux"; "a.png"; "/a.png"; "pics/a.png"; "a/b/"; ""]
  = ["/foo/bar/baz/asdf"; "."; "/"; "pics"; "a"; "."].
Proof. reflexivity. Qed.

Example join_examples :
  NodePath.join ["/foo"; "bar"; "baz/asdf"; "quux"; ".."] = "/foo/bar/baz/asdf" /\
  NodePath.join ["."; "a.webp"] = "a.webp" /\
  NodePath.join ["out/"; "a.webp"] = "out/a.webp" /\
  NodePath.join ["/srv/app/dist"; "../temp"] = "/srv/app/temp" /\
  NodePath.join [""; ""] = "." /\
  NodePath.normalize "/foo/bar//baz/asdf/quux/.." = "/foo/bar/baz/asdf" /\
  NodePath.normalize "a/../../b/" = "../b/".
Proof. repeat split; reflexivity. Qed.

Example parseInt_examples :
  map ParseInt.parseInt10 ["75"; " 80px"; "-5"; "+12"; "0x1f"; "abc"; ""]
  = [of_Z 75; of_Z 80; of_Z (-5); of_Z 12; of_Z 0; NaN; NaN].
Proof. reflexivity. Qed.

(* ===================================================================== *)
(** ** Properties of [optimizeImage] *)
(* ===================================================================== *)





(** Inversion of the monad's operations. *)
Lemma bind_Ok {W A B} (m : M W A) (k : A -> M W B) st b st' :
  bind m k st = (Ok b, st') ->
  exists a st1, m st = (Ok a, st1) /\ k a st1 = (Ok b, st').
Proof.
  unfold bind. destruct (m st) as [[a|e] st1]; [eauto|discriminate].
Qed.

Lemma call_inv {W A} ev (f : W -> outcome A * W) st r st' :
  call ev f st = (r, st') ->
  f (world st) = (r, world st') /\ trace st' = (trace st ++ [ev])%list.
Proof.
  unfold call. destruct (f (world st)) as [r0 w'].
  intros H; inversion H; subst; auto.
Qed.

Lemma ret_inv {W A} (a b : A) (st st' : St W) :
  ret a st = (Ok b, st') -> a = b /\ st = st'.
Proof. unfold ret. intros H; inversion H; auto. Qed.

Lemma when_Ok {W} c (m : M W unit) st u st' :
  when c m st = (Ok u, st') ->
  (c = true /\ m st = (Ok u, st')) \/ (c = false /\ st' = st).
Proof.
  unfold when, ret. destruct c; [auto|].
  intros H; inversion H; auto.
Qed.

Ltac inv_bind H :=
  let a := fresh "a" in let st1 := fresh "st" in
  let H1 := fresh "Hm" in
  apply bind_Ok in H; destruct H as (a & st1 & H1 & H).

Section OptimizerFacts.

Context {W : Type} (S : Sys W).

Lemma ensureOutputDir_Ok dir (st st' : St W) u :
  ensureOutputDir S dir st = (Ok u, st') ->
  trace st' = (trace st ++ mkdirEvents dir)%list.
Proof.
  unfold ensureOutputDir, mkdirEvents.
  destruct dir as [d|].
  - intros H. apply when_Ok in H as [[-> H]|[-> ->]].
    + apply call_inv in H. tauto.
    + now rewrite app_nil_r.
  - intros H. apply ret_inv in H as [_ <-]. now rewrite app_nil_r.
Qed.

Lemma optimizeImage_try_Ok input q dir keep f (st st' : St W) r :
optimizeImage_try S input q dir keep f st = (Ok r, st') ->
r = {| inputPath := input;
       outputPath := outputPathFor input dir f;
       originalSize := originalSize r;
       optimizedSize := optimizedSize r;
       reduction := round2 (rawReduction (originalSize r) (optimizedSize r));
       success := true;
       error := None |}
/\ trace st' = (trace st ++ successEvents input q dir keep f)%list
/\ exists w1 w2 w3 w4,
     fs_stat S input w1 = (Ok (originalSize r), w2) /\
     fs_stat S (outputPathFor input dir f) w3 = (Ok (optimizedSize r), w4).
Proof.
unfold optimizeImage_try, successEvents. intros H.
inv_bind H. apply call_inv in Hm as [_ T1].
inv_bind H. apply call_inv in Hm as [S2 T2].
inv_bind H. apply ensureOutputDir_Ok in Hm.
inv_bind H. apply call_inv in Hm0 as [_ T4].
inv_bind H. apply call_inv in Hm0 as [S5 T5].
inv_bind H. apply when_Ok in Hm0 as [[-> Hu]|[-> ->]].
- apply call_inv in Hu as [_ T6]. apply ret_inv in H as [<- <-].
  simpl. split; [reflexivity|]. split; [|eauto 6].
  rewrite T6, T5, T4, Hm, T2, T1, <- !app_assoc. reflexivity.
- apply ret_inv in H as [<- <-].
  simpl. split; [reflexivity|]. split; [|eauto 6].
  rewrite T5, T4, Hm, T2, T1, <- !app_assoc. reflexivity.
Qed.


End OptimizerFacts.

Section SingleItem.

Context {W : Type} (S : Sys W).




(** [optimizeImage] always returns, and the result names its source. *)
Lemma optimizeImage_total (input : string) (options : OptimizeOptions)
    (st : St W) :
  exists r st',
    optimizeImage S input options st = (Ok r, st') /\ inputPath r = input.
Proof.
  unfold optimizeImage, try_catch.
  destruct (optimizeImage_try S input _ _ _ _ st) as [[r|e] st'] eqn:E.
  - exists r, st'. split; [reflexivity|].
    apply optimizeImage_try_Ok in E as [-> _]. reflexivity.
  - exists (failureResult input e), st'. split; reflexivity.
Qed.


End SingleItem.

(** A source that is not on disk: the result carries the message of the
    error [fs.access] threw, and nothing else was called. *)
Example missing_source_fails :
  optimizeImage (Sim.sys Sim.halving) "nowhere.png" no_options
    (Sim.start (Sim.disk []))
  = (Ok {| inputPath := "nowhere.png";
           outputPath := "";
           originalSize := 0;
           optimizedSize := 0;
           reduction := of_Z 0;
           success := false;
           error := Some "ENOENT: no such file or directory, access 'nowhere.png'" |},
     {| world := Sim.disk []; trace := [EvAccess "nowhere.png"] |}).
Proof. vm_compute. reflexivity. Qed.

(** A source the codec refuses: same shape, with the message of the codec,
    and the source is still on disk. *)
Example codec_error_fails :
  exists st',
    optimizeImage (Sim.sys Sim.refusing) "broken.png" no_options
      (Sim.start (Sim.disk [("broken.png", 12%N)]))
    = (Ok (failureResult "broken.png"
             (JsError "Input file contains unsupported image format")), st') /\
    world st' !! "broken.png" = Some 12%N /\
    trace st' = [EvAccess "broken.png"; EvStat "broken.png";
                 EvToFile "broken.png" (EncWebp (of_Z 75) 6) "broken.webp"].
Proof.
  eexists. split; [vm_compute; reflexivity|]. split; reflexivity.
Qed.

(* ===================================================================== *)
(** ** Properties of [optimizeBatch] *)
(* ===================================================================== *)

Section Batch.

Context {W : Type} (S : Sys W).



End Batch.


(* ===================================================================== *)
(** ** The reported reduction *)
(* ===================================================================== *)




Section Reduction.

Context {W : Type} (S : Sys W).


(** A codec failure, like any other, gives a reduction of 0. *)
Lemma reduction_of_failure input e : reduction (failureResult input e) = of_Z 0.
Proof. reflexivity. Qed.

End Reduction.



(* ===================================================================== *)
(** ** Deletion of the original *)
(* ===================================================================== *)



Section Deletion.

Context {W : Type} (S : Sys W).


End Deletion.


(** Scenario D: with [keepOriginal = true] the [.png] source is still on
    disk after its conversion to webp. *)
Example scenario_keepOriginal :
  exists r st',
    optimizeImage (Sim.sys Sim.halving) "a.png"
      {| quality := None; outputDir := None; keepOriginal := Some true;
         format := Some webp |}
      (Sim.start (Sim.disk [("a.png", 1000%N)])) = (Ok r, st') /\
    success r = true /\
    world st' !! "a.png" = Some 1000%N /\
    world st' !! "a.webp" = Some 500%N /\
    trace st' = [EvAccess "a.png"; EvStat "a.png";
                 EvToFile "a.png" (EncWebp (of_Z 75) 6) "a.webp";
                 EvStat "a.webp"].
Proof.
  eexists. eexists. split; [vm_compute; reflexivity|].
  repeat split; reflexivity.
Qed.

(** Scenario E: a [.webp] source optimized to webp into another directory:
    nothing is unlinked, and the result is a success with both sizes. *)
Example scenario_same_extension :
  exists r st',
    optimizeImage (Sim.sys Sim.halving) "in/a.webp"
      {| quality := Some (of_Z 80); outputDir := Some "out";
         keepOriginal := Some false; format := Some webp |}
      (Sim.start (Sim.disk [("in/a.webp", 1000%N)])) = (Ok r, st') /\
    success r = true /\ originalSize r = 1000%N /\ optimizedSize r = 500%N /\
    outputPath r = "out/a.webp" /\
    world st' !! "in/a.webp" = Some 1000%N /\
    trace st' = [EvAccess "in/a.webp"; EvStat "in/a.webp"; EvMkdir "out";
                 EvToFile "in/a.webp" (EncWebp (of_Z 80) 6) "out/a.webp";
                 EvStat "out/a.webp"].
Proof.
  eexists. eexists. split; [vm_compute; reflexivity|].
  repeat split; reflexivity.
Qed.

(* ===================================================================== *)
(** ** The PNG compression level *)
(* ===================================================================== *)




(** The levels of a few qualities between 0 and 100. *)
Example png_levels :
  map (fun q => compressionLevel (of_Z q)) [0; 5; 6; 50; 75; 94; 95; 100]
  = map of_Z [9; 9; 8; 5; 2; 1; 0; 0].
Proof. reflexivity. Qed.

(* ===================================================================== *)
(** ** The output path *)
(* ===================================================================== *)

Section PathFacts.

Import NodePath.
Local Open Scope list_scope.
Local Open Scope nat_scope.














End PathFacts.






Section OutputPath.

Context {W : Type} (S : Sys W).


End OutputPath.


(* ===================================================================== *)
(** ** The archive loop *)
(* ===================================================================== *)

Section ArchiveFacts.

Context {W : Type} (S : Sys W).

Lemma addFilesToArchive_loop (files : list string) :
  forall (archive : list ArchiveEntry) (st : St W),
    for_of files
      (fun filePath archive =>
         try_catch
           (let! _ := access S filePath in
            let entry := entryFor filePath in
            let! _ := emit (EvArchiveFile entry) in
            ret (archive ++ [entry])%list)
           (fun _ =>
              let! _ := emit (EvConsoleError filePath) in
              ret archive)) archive st
    = (Ok (archive ++ map entryFor (stillThere S files (world st)))%list,
       {| world := afterChecks S files (world st);
          trace := (trace st ++ archiveEvents S files (world st))%list |}).
Proof.
  induction files as [|p files IH]; intros archive [w t]; simpl.
  - unfold ret. now rewrite !app_nil_r.
  - unfold bind at 1, try_catch at 1, bind at 1, access, call. simpl.
    destruct (fs_access S p w) as [[[]|e] w'] eqn:E; simpl.
    + rewrite IH. simpl. rewrite <- !app_assoc. reflexivity.
    + rewrite IH. simpl. rewrite <- !app_assoc. reflexivity.
Qed.

Lemma stillThere_sublist (files : list string) (w : W) :
  sublist (stillThere S files w) files.
Proof.
  revert w. induction files as [|p files IH]; intros w; simpl.
  - constructor.
  - destruct (fs_access S p w) as [[[]|e] w'].
    + apply sublist_skip, IH.
    + apply sublist_cons, IH.
Qed.

(** When every check succeeds, every path is kept. *)
Lemma stillThere_all (files : list string) (w : W) :
  length (stillThere S files w) = length files -> stillThere S files w = files.
Proof.
  revert w. induction files as [|p files IH]; intros w; simpl; [reflexivity|].
  destruct (fs_access S p w) as [[[]|e] w']; simpl; intros H.
  - f_equal. apply IH. lia.
  - pose proof (sublist_length _ _ (stillThere_sublist files w')). lia.
Qed.

(** [try { await fs.unlink(p) } catch { }] never throws. *)
Lemma unlink_quietly_returns (p : string) (st : St W) :
  exists st', unlink_quietly S p st = (Ok tt, st').
Proof.
  unfold unlink_quietly, try_catch, unlink, call, ret.
  destruct (fs_unlink S p (world st)) as [[[]|e] w']; eauto.
Qed.

Lemma unlink_all_quietly_returns {X} (proj : X -> string) (xs : list X) (st : St W) :
  exists st',
    for_of xs (fun x (_ : unit) => unlink_quietly S (proj x)) tt st = (Ok tt, st').
Proof.
  revert st. induction xs as [|x xs IH]; intros st; simpl.
  - unfold ret. eauto.
  - unfold bind. destruct (unlink_quietly_returns (proj x) st) as (st1 & ->).
    apply IH.
Qed.

End ArchiveFacts.

Section ArchiveBuilder.

Context {W : Type} (S : Sys W).


End ArchiveBuilder.

(** On the simulated file system a path is kept exactly when it is on
    disk. *)
Lemma stillThere_on_disk codec (files : list string) (w : gmap string N) :
  stillThere (Sim.sys codec) files w
  = List.filter (fun p => bool_decide (is_Some (w !! p))) files.
Proof.
  induction files as [|p files IH]; [reflexivity|].
  cbn [stillThere List.filter].
  change (fs_access (Sim.sys codec) p w) with (Sim.sim_access p w).
  unfold Sim.sim_access. destruct (w !! p) as [n|] eqn:E.
  - rewrite bool_decide_eq_true_2 by eauto. now rewrite IH.
  - rewrite bool_decide_eq_false_2 by (intros [? ?]; discriminate). exact IH.
Qed.

(** Three optimized files of which the second has disappeared: two entries
    are queued, the omission is reported, and the loop goes on. *)
Example archive_of_remaining_files :
  exists st',
    addFilesToArchive (Sim.sys Sim.halving)
      ["/tmp/optimize/a.webp"; "/tmp/optimize/b.webp"; "/tmp/optimize/c.webp"]
      (Sim.start (Sim.disk [("/tmp/optimize/a.webp", 10%N);
                            ("/tmp/optimize/c.webp", 30%N)]))
    = (Ok [ {| entrySource := "/tmp/optimize/a.webp"; entryName := "a.webp" |};
            {| entrySource := "/tmp/optimize/c.webp"; entryName := "c.webp" |} ],
       st') /\
    trace st' = [EvAccess "/tmp/optimize/a.webp";
                 EvArchiveFile {| entrySource := "/tmp/optimize/a.webp";
                                  entryName := "a.webp" |};
                 EvAccess "/tmp/optimize/b.webp";
                 EvConsoleError "/tmp/optimize/b.webp";
                 EvAccess "/tmp/optimize/c.webp";
                 EvArchiveFile {| entrySource := "/tmp/optimize/c.webp";
                                  entryName := "c.webp" |}].
Proof.
  eexists. split; [vm_compute; reflexivity|reflexivity].
Qed.

(* ===================================================================== *)
(** ** Which events a computation adds *)
(* ===================================================================== *)

Section Emits.

Context {W : Type} (P : Event -> Prop).

Lemma emits_ret {A} (a : A) : emits (W := W) P (ret a).
Proof.
  intros st r st' H. inversion H; subst. exists []. now rewrite app_nil_r.
Qed.

Lemma emits_throw {A} (e : exn) : emits (W := W) (A := A) P (throw e).
Proof.
  intros st r st' H. inversion H; subst. exists []. now rewrite app_nil_r.
Qed.

Lemma emits_call {A} ev (f : W -> outcome A * W) : P ev -> emits P (call ev f).
Proof.
  intros Hev st r st' H. apply call_inv in H as [_ H].
  exists [ev]. split; [exact H|]. now constructor.
Qed.

Lemma emits_emit ev : P ev -> emits (W := W) P (emit ev).
Proof.
  intros Hev st r st' H. inversion H; subst. simpl.
  exists [ev]. split; [reflexivity|]. now constructor.
Qed.

Lemma emits_bind {A B} (m : M W A) (k : A -> M W B) :
  emits P m -> (forall a, emits P (k a)) -> emits P (bind m k).
Proof.
  intros Hm Hk st r st'. unfold bind.
  destruct (m st) as [[a|e] st1] eqn:E; intros H.
  - destruct (Hm _ _ _ E) as (evs1 & T1 & F1).
    destruct (Hk a _ _ _ H) as (evs2 & T2 & F2).
    exists (evs1 ++ evs2)%list. split.
    + now rewrite T2, T1, app_assoc.
    + now apply Forall_app.
  - inversion H; subst. exact (Hm _ _ _ E).
Qed.

Lemma emits_try_catch {A} (m : M W A) (h : exn -> M W A) :
  emits P m -> (forall e, emits P (h e)) -> emits P (try_catch m h).
Proof.
  intros Hm Hh st r st'. unfold try_catch.
  destruct (m st) as [[a|e] st1] eqn:E; intros H.
  - inversion H; subst. exact (Hm _ _ _ E).
  - destruct (Hm _ _ _ E) as (evs1 & T1 & F1).
    destruct (Hh e _ _ _ H) as (evs2 & T2 & F2).
    exists (evs1 ++ evs2)%list. split.
    + now rewrite T2, T1, app_assoc.
    + now apply Forall_app.
Qed.

Lemma emits_when c (m : M W unit) : emits P m -> emits P (when c m).
Proof. destruct c; [auto|intros _; apply emits_ret]. Qed.

Lemma emits_for_of {X Acc} (xs : list X) (body : X -> Acc -> M W Acc) :
  (forall x acc, emits P (body x acc)) ->
  forall acc, emits P (for_of xs body acc).
Proof.
  intros Hb. induction xs as [|x xs IH]; intros acc; simpl.
  - apply emits_ret.
  - apply emits_bind; [apply Hb|exact IH].
Qed.

End Emits.

Section NoArchiveEvent.

Context {W : Type} (S : Sys W).

Lemma optimizeImage_quiet input options : emits quiet (optimizeImage S input options).
Proof.
  unfold optimizeImage. apply emits_try_catch; [|intros e; apply emits_ret].
  unfold optimizeImage_try, access, stat_size, toFile, unlink, ensureOutputDir,
    mkdir_recursive.
  repeat first
    [ apply emits_bind; [|intros ?]
    | apply emits_call; reflexivity
    | apply emits_when
    | apply emits_ret
    | match goal with |- emits _ (match ?d with _ => _ end) => destruct d end ].
Qed.


End NoArchiveEvent.

(* ===================================================================== *)
(** ** The two HTTP handlers *)
(* ===================================================================== *)

Section ExpressFacts.

Context {W : Type} (S : Sys W) (tempDir now : string).

Lemma express_processFile q f (file : Express.MulterFile) results optimizedFiles
    (st : St W) :
  exists r st',
    Express.processFile S tempDir q f file (results, optimizedFiles) st
    = (Ok ((results ++ [r])%list,
           (optimizedFiles ++ if success r then [outputPath r] else [])%list),
       st') /\
    inputPath r = Express.path file.
Proof.
  unfold Express.processFile, try_catch, bind.
  destruct (optimizeImage_total S (Express.path file)
              (Express.uploadOptions tempDir q f) st) as (r & st1 & -> & Hin).
  exists r. destruct (success r); simpl.
  - destruct (unlink_quietly_returns S (Express.path file) st1) as (st2 & ->).
    eauto.
  - match goal with
    | |- context [unlink_quietly S ?p ?s] =>
        destruct (unlink_quietly_returns S p s) as (st2 & ->)
    end.
    rewrite app_nil_r. eauto.
Qed.


(** The loop of the route: one result per uploaded file, in order, and the
    output paths of the successful ones in [optimizedFiles]. *)
Lemma express_processUploads_loop q f (uploads : list Express.MulterFile) :
  forall results optimizedFiles (st : St W),
  exists rs st',
    for_of uploads (Express.processFile S tempDir q f) (results, optimizedFiles) st
    = (Ok ((results ++ rs)%list,
           (optimizedFiles ++ map outputPath (List.filter success rs))%list), st') /\
    map inputPath rs = map Express.path uploads.
Proof.
  induction uploads as [|file uploads IH]; intros results optimizedFiles st.
  - exists [], st. simpl. now rewrite !app_nil_r.
  - destruct (express_processFile q f file results optimizedFiles st)
      as (r & st1 & Hr & Hin).
    destruct (IH (results ++ [r])%list
                (optimizedFiles ++ if success r then [outputPath r] else [])%list st1)
      as (rs & st' & Hloop & Hmap).
    exists (r :: rs), st'. split.
    + cbn [for_of]. unfold bind at 1. rewrite Hr, Hloop. rewrite <- !app_assoc.
      cbn [List.filter]. destruct (success r); reflexivity.
    + simpl. now rewrite Hin, Hmap.
Qed.

(** The outer [try] block of the route throws only if [fs.mkdir] does: the
    loop and the archive never throw. *)
Lemma express_try_Thrown q f uploads zipPath (st st' : St W) e :
  Express.optimizeRoute_try S tempDir q f uploads zipPath st = (Thrown e, st') ->
  exists w, fs_mkdir S tempDir (world st) = (Thrown e, w).
Proof.
  unfold Express.optimizeRoute_try, bind, mkdir_recursive, call.
  destruct (fs_mkdir S tempDir (world st)) as [[[]|e0] w1] eqn:E.
  - unfold Express.processUploads.
    match goal with
    | |- context [for_of uploads ?b ([], []) ?s] =>
        destruct (express_processUploads_loop q f uploads [] [] s)
          as (rs & st2 & -> & _)
    end.
    unfold Express.respondOrArchive. simpl.
    destruct (map outputPath (List.filter success rs)) as [|o os] eqn:Eo.
    + discriminate.
    + rewrite <- Eo.
      unfold Express.startArchive, bind, addFilesToArchive.
      rewrite (addFilesToArchive_loop S _ [] st2). discriminate.
  - intros H; inversion H; subst. eauto.
Qed.

End ExpressFacts.

Section ServerlessFacts.

Context {W : Type} (S : Sys W).




End ServerlessFacts.




Section Handlers400.

Context {W : Type} (S : Sys W) (tempDir now : string).


End Handlers400.



(** On the serverless handler a file that has no path is passed over: of
    two files sent only one appears in [details]. *)
Example serverless_skips_files_without_path :
  exists st',
    Serverless.handler (Sim.sys Sim.refusing)
      {| Serverless.method := "POST";
         Serverless.parsed :=
           Ok {| Serverless.fields_quality := None;
                 Serverless.fields_format := None;
                 Serverless.images :=
                   Serverless.ManyImages
                     [ {| Serverless.filepath := None;
                          Serverless.path := None;
                          Serverless.originalFilename := Some "ghost.png" |};
                       {| Serverless.filepath := Some "/tmp/optimize/u2.png";
                          Serverless.path := None;
                          Serverless.originalFilename := Some "two.png" |} ] |} |}
      (Sim.start (Sim.disk [("/tmp/optimize/u2.png", 200%N)]))
    = (Ok (RespJson 400
             {| bodyError := "Nenhuma imagem foi processada com sucesso";
                bodyMessage := None;
                bodyDetails :=
                  Some [ {| detailFile := "/tmp/optimize/u2.png";
                            detailError :=
                              "Input file contains unsupported image format" |} ] |}),
       st').
Proof.
  eexists. vm_compute. reflexivity.
Qed.

(** Scenario B on the Express route: of two uploads the second is not on
    disk.  The archive is started with the one entry of the first. *)
Example scenario_one_missing_upload :
  exists zipPath st',
    Express.optimizeRoute (Sim.sys Sim.halving) "/srv/temp" "1700000000000"
      {| Express.body_quality := None;
         Express.body_format := None;
         Express.body_keepOriginal := None;
         Express.files :=
           Some [ {| Express.path := "/srv/uploads/u1";
                     Express.originalname := "one.png" |};
                  {| Express.path := "/srv/uploads/u2";
                     Express.originalname := "two.png" |} ] |}
      (Sim.start (Sim.disk [("/srv/uploads/u1", 100%N)]))
    = (Ok (Express.Streaming zipPath
             [ {| entrySource := "/srv/temp/u1.webp"; entryName := "u1.webp" |} ]),
       st') /\
    zipPath = "/srv/temp/optimized-1700000000000.zip" /\
    last (trace st') = Some EvFinalize.
Proof.
  eexists. eexists. split; [vm_compute; reflexivity|].
  split; reflexivity.
Qed.

(* ===================================================================== *)
(** ** [findImagesInDirectory] *)
(* ===================================================================== *)

Section ScanFacts.

Import Scan.

Lemma Dirent_nested_ind (P : Dirent -> Prop) :
  (forall name, P (File name)) ->
  (forall name entries, Forall P entries -> P (Directory name entries)) ->
  (forall name e, P (Unreadable name e)) ->
  (forall name, P (Other name)) ->
  forall e, P e.
Proof.
  intros HF HD HU HO. fix IH 1. intros [name|name entries|name e|name].
  - apply HF.
  - apply HD. induction entries as [|x entries IHl]; constructor; [apply IH|exact IHl].
  - apply HU.
  - apply HO.
Qed.

Lemma isImageName_spec (name : string) :
  isImageName name = true <-> hasImageExtension name.
Proof.
  unfold isImageName, hasImageExtension, includes, supportedExtensions.
  rewrite existsb_exists. split.
  - intros (x & Hin & Heq). apply String.eqb_eq in Heq. now subst.
  - intros Hin. eexists. split; [exact Hin|apply String.eqb_refl].
Qed.

Lemma scanEntry_Directory recursive cur name entries images :
  scanEntry recursive cur (Directory name entries) images
  = if recursive
    then scanEntries recursive (NodePath.join [cur; name]) entries images
    else Ok images.
Proof.
  destruct recursive; [|reflexivity]. simpl.
  revert images. induction entries as [|e entries IH]; intros images;
    [reflexivity|].
  simpl. destruct (scanEntry true _ e images); [apply IH|reflexivity].
Qed.

Lemma scanEntries_sound recursive cur (entries : list Dirent) :
  Forall scan_sound entries ->
  forall images images',
    scanEntries recursive cur entries images = Ok images' ->
    exists new, images' = (images ++ new)%list /\
      forall p, In p new <-> exists e, In e entries /\ Found recursive cur e p.
Proof.
  induction 1 as [|e entries He _ IH]; intros images images' H; simpl in H.
  - inversion H; subst. exists []. rewrite app_nil_r. split; [reflexivity|].
    intros p; split; [intros []|intros (e & [] & _)].
  - destruct (scanEntry recursive cur e images) as [mid|x] eqn:E; [|discriminate].
    destruct (He _ _ _ _ E) as (new1 & -> & H1).
    destruct (IH _ _ H) as (new2 & -> & H2).
    exists (new1 ++ new2)%list. rewrite app_assoc. split; [reflexivity|].
    intros p. rewrite in_app_iff, H1, H2. split.
    + intros [Hf|(e' & Hin & Hf)]; [exists e; simpl; auto|exists e'; simpl; auto].
    + intros (e' & [<-|Hin] & Hf); [left; exact Hf|right; eauto].
Qed.

Lemma scanEntry_sound (e : Dirent) : scan_sound e.
Proof.
  induction e as [name|name entries IH|name x|name] using Dirent_nested_ind;
    intros recursive cur images images' H.
  - simpl in H. destruct (isImageName name) eqn:E; inversion H; subst.
    + exists [NodePath.join [cur; name]]. split; [reflexivity|].
      intros p; split.
      * intros [<-|[]]. constructor. now apply isImageName_spec.
      * intros Hf; inversion Hf; subst. now left.
    + exists []. rewrite app_nil_r. split; [reflexivity|].
      intros p; split; [intros []|].
      intros Hf; inversion Hf as [? ? Hext|]; subst.
      apply isImageName_spec in Hext. congruence.
  - rewrite scanEntry_Directory in H. destruct recursive.
    + destruct (scanEntries_sound true _ entries IH _ _ H) as (new & -> & Hnew).
      exists new. split; [reflexivity|].
      intros p. rewrite Hnew. split.
      * intros (e & Hin & Hf). econstructor; eauto.
      * intros Hf; inversion Hf; subst. eauto.
    + inversion H; subst. exists []. rewrite app_nil_r. split; [reflexivity|].
      intros p; split; [intros []|].
      intros Hf; inversion Hf; subst. discriminate.
  - simpl in H. destruct recursive; [discriminate|]. inversion H; subst.
    exists []. rewrite app_nil_r. split; [reflexivity|].
    intros p; split; [intros []|intros Hf; inversion Hf].
  - simpl in H. inversion H; subst.
    exists []. rewrite app_nil_r. split; [reflexivity|].
    intros p; split; [intros []|intros Hf; inversion Hf].
Qed.

End ScanFacts.

Section ScanTheorems.

Import Scan.

Lemma scanEntries_flat (cur : string) (entries : list Dirent) :
  forall images,
    scanEntries false cur entries images
    = Ok (images ++ topLevelImages cur entries)%list.
Proof.
  induction entries as [|e entries IH]; intros images; simpl.
  - now rewrite app_nil_r.
  - destruct e as [name|name sub|name x|name]; simpl;
      try (rewrite IH; reflexivity).
    destruct (isImageName name); rewrite IH; [|reflexivity].
    now rewrite <- app_assoc.
Qed.

Lemma scanEntry_readable (e : Dirent) :
  readable e = true ->
  forall recursive cur images, exists images',
    scanEntry recursive cur e images = Ok images'.
Proof.
  induction e as [name|name entries IH|name x|name] using Dirent_nested_ind;
    intros Hr recursive cur images.
  - simpl. destruct (isImageName name); eauto.
  - rewrite scanEntry_Directory. destruct recursive; [|eauto].
    simpl in Hr. generalize (NodePath.join [cur; name]) as dir. intros dir.
    revert images. induction entries as [|e entries IHl]; intros images; simpl.
    + eauto.
    + simpl in Hr. apply andb_true_iff in Hr as [He Hes].
      inversion IH as [|? ? IHe IHes]; subst.
      destruct (IHe He true dir images) as (mid & ->).
      apply IHl; assumption.
  - discriminate.
  - simpl. eauto.
Qed.

Lemma scanEntries_readable (entries : list Dirent) :
  forallb readable entries = true ->
  forall recursive cur images, exists images',
    scanEntries recursive cur entries images = Ok images'.
Proof.
  induction entries as [|e entries IH]; intros Hr recursive cur images; simpl.
  - eauto.
  - simpl in Hr. apply andb_true_iff in Hr as [He Hes].
    destruct (scanEntry_readable e He recursive cur images) as (mid & ->).
    now apply IH.
Qed.

(** C9.  A name counts as an image exactly when its extension, lowercased,
    is [.png], [.jpg], [.jpeg] or [.webp], so [PHOTO.JPG] and [img.PnG] do.
    Whenever [findImagesInDirectory] returns a list, a path is in it if and
    only if it is the full path of a regular file with such a name that is
    an entry of the directory or, when [recursive] is true, of a directory
    below it.  With [recursive = false] the function always returns, and
    returns the image files among the entries of the directory itself, in
    order: no subdirectory is read.  With [recursive = true] it returns
    whenever every directory below can be read. *)
Theorem findImagesInDirectory_spec :
  (forall name, isImageName name = true <-> hasImageExtension name) /\
  isImageName "PHOTO.JPG" = true /\ isImageName "img.PnG" = true /\
  isImageName "notes.txt" = false /\
  (forall dir entries recursive images,
     findImagesInDirectory dir (Ok entries) recursive = Ok images ->
     forall p, In p images <-> exists e, In e entries /\ Found recursive dir e p) /\
  (forall dir entries,
     findImagesInDirectory dir (Ok entries) false
     = Ok (topLevelImages dir entries)) /\
  (forall dir entries,
     forallb readable entries = true ->
     exists images, findImagesInDirectory dir (Ok entries) true = Ok images).
Proof.
  split; [exact isImageName_spec|].
  split; [reflexivity|]. split; [reflexivity|]. split; [reflexivity|].
  split; [|split].
  - intros dir entries recursive images H. unfold findImagesInDirectory in H.
    assert (Hall : Forall scan_sound entries)
      by (apply Forall_forall; intros; apply scanEntry_sound).
    destruct (scanEntries_sound recursive dir entries Hall [] images H)
      as (new & -> & Hnew).
    exact Hnew.
  - intros dir entries. unfold findImagesInDirectory.
    now rewrite scanEntries_flat.
  - intros dir entries Hr. unfold findImagesInDirectory.
    now apply scanEntries_readable.
Qed.

End ScanTheorems.

(** A directory with an upper-case image, a text file, and a subdirectory
    named like an image that holds a mixed-case one. *)
Lemma findImagesInDirectory_spec_witness :
  Scan.findImagesInDirectory "pics"
    (Ok [Scan.File "PHOTO.JPG"; Scan.File "notes.txt";
         Scan.Directory "sub.png" [Scan.File "img.PnG"; Scan.Other "x.png"];
         Scan.Unreadable "locked" NotAnError]) false
  = Ok ["pics/PHOTO.JPG"] /\
  (exists images,
     Scan.findImagesInDirectory "pics"
       (Ok [Scan.File "PHOTO.JPG"; Scan.File "notes.txt";
            Scan.Directory "sub.png" [Scan.File "img.PnG"; Scan.Other "x.png"]])
       true = Ok images /\
     forall p, In p images <->
       exists e,
         In e [Scan.File "PHOTO.JPG"; Scan.File "notes.txt";
               Scan.Directory "sub.png" [Scan.File "img.PnG"; Scan.Other "x.png"]] /\
         Found true "pics" e p).
Proof.
  destruct findImagesInDirectory_spec as (_ & _ & _ & _ & Hiff & Hflat & Htotal).
  split.
  - rewrite Hflat. reflexivity.
  - destruct (Htotal "pics"
                [Scan.File "PHOTO.JPG"; Scan.File "notes.txt";
                 Scan.Directory "sub.png" [Scan.File "img.PnG"; Scan.Other "x.png"]]
                eq_refl) as (images & Himages).
    exists images. split; [exact Himages|].
    exact (Hiff _ _ _ _ Himages).
Defined.

Example findImagesInDirectory_recursive_run :
  Scan.findImagesInDirectory "pics"
    (Ok [Scan.File "PHOTO.JPG"; Scan.File "notes.txt";
         Scan.Directory "sub.png" [Scan.File "img.PnG"; Scan.Other "x.png"]])
    true
  = Ok ["pics/PHOTO.JPG"; "pics/sub.png/img.PnG"].
Proof. reflexivity. Qed.

(* ===================================================================== *)
(** ** [formatBytes] *)
(* ===================================================================== *)

Section FormatFacts.

Import Format.
Local Open Scope N_scope.

Lemma pow_1024 (i : N) : 1024 ^ i = 2 ^ (10 * i).
Proof. rewrite N.pow_mul_r. reflexivity. Qed.

(** [unitIndex bytes] is the whole part of the logarithm of [bytes] in base
    1024. *)
Lemma unitIndex_bounds (bytes : N) :
  1 <= bytes ->
  1024 ^ N.of_nat (unitIndex bytes) <= bytes
  /\ bytes < 1024 ^ (N.of_nat (unitIndex bytes) + 1).
Proof.
  intros Hpos. unfold unitIndex. rewrite N2Nat.id, !pow_1024.
  destruct (N.log2_spec bytes) as [Hlo Hhi]; [lia|].
  pose proof (N.Div0.mul_div_le (N.log2 bytes) 10) as Hdiv.
  pose proof (N.mul_succ_div_gt (N.log2 bytes) 10) as Hdiv'.
  split.
  - eapply N.le_trans; [|exact Hlo]. apply N.pow_le_mono_r; lia.
  - eapply N.lt_le_trans; [exact Hhi|]. apply N.pow_le_mono_r; lia.
Qed.



End FormatFacts.

(** The same index over the real numbers: [unitIndex bytes] is the whole
    part of [ln bytes / ln 1024], the quotient that
    [Math.floor(Math.log(bytes) / Math.log(k))] approximates in double
    precision. *)
Section RealLogarithm.

Import Reals Lra.
Local Open Scope R_scope.

Lemma floor_log_1024 (b : N) (i : nat) :
  (1024 ^ N.of_nat i <= b)%N -> (b < 1024 ^ (N.of_nat i + 1))%N ->
  INR i <= ln (IZR (Z.of_N b)) / ln 1024 /\
  ln (IZR (Z.of_N b)) / ln 1024 < INR i + 1.
Proof.
  intros Hlo Hhi.
  assert (Hk : 0 < ln 1024).
  { rewrite <- ln_1. apply ln_increasing; lra. }
  assert (Hpow : forall n : nat, IZR (Z.of_N (1024 ^ N.of_nat n)) = 1024 ^ n).
  { intros n. rewrite N2Z.inj_pow, nat_N_Z. simpl (Z.of_N 1024).
    now rewrite <- pow_IZR. }
  assert (Hpos : forall n : nat, 0 < 1024 ^ n) by (intros; apply pow_lt; lra).
  assert (Hlo' : 1024 ^ i <= IZR (Z.of_N b)).
  { rewrite <- Hpow. apply IZR_le. lia. }
  assert (Hhi' : IZR (Z.of_N b) < 1024 ^ (S i)).
  { rewrite <- Hpow. apply IZR_lt. rewrite Nat2N.inj_succ, <- N.add_1_r. lia. }
  assert (Hb : 0 < IZR (Z.of_N b))
    by (eapply Rlt_le_trans; [apply (Hpos i)|exact Hlo']).
  split.
  - apply Rmult_le_reg_r with (ln 1024); [exact Hk|].
    unfold Rdiv. rewrite Rmult_assoc, Rinv_l, Rmult_1_r by lra.
    rewrite <- ln_pow by lra.
    destruct (Rle_lt_or_eq_dec _ _ Hlo') as [Hlt|Heq].
    + left. apply ln_increasing; [apply Hpos|exact Hlt].
    + rewrite Heq. right. reflexivity.
  - apply Rmult_lt_reg_r with (ln 1024); [exact Hk|].
    unfold Rdiv. rewrite Rmult_assoc, Rinv_l, Rmult_1_r by lra.
    replace (INR i + 1) with (INR (S i)) by (rewrite S_INR; reflexivity).
    rewrite <- ln_pow by lra.
    apply ln_increasing; [exact Hb|exact Hhi'].
Qed.

Lemma unitIndex_is_floor_of_log (bytes : N) :
  (1 <= bytes)%N ->
  INR (Format.unitIndex bytes) <= ln (IZR (Z.of_N bytes)) / ln 1024 /\
  ln (IZR (Z.of_N bytes)) / ln 1024 < INR (Format.unitIndex bytes) + 1.
Proof.
  intros Hpos. destruct (unitIndex_bounds bytes Hpos) as [Hlo Hhi].
  now apply floor_log_1024.
Qed.

End RealLogarithm.

Section FormatTheorem.

Import Format.
Local Open Scope N_scope.


End FormatTheorem.


(* ===================================================================== *)
(** ** Further properties of [optimizeImage] and [optimizeBatch] *)
(* ===================================================================== *)

Lemma call_trace {W A} ev (f : W -> outcome A * W) (st st' : St W) r :
  call ev f st = (r, st') -> trace st' = (trace st ++ [ev])%list.
Proof. intros H. now apply call_inv in H. Qed.

Section RunShape.

Context {W : Type} (S : Sys W).

Lemma ensureOutputDir_trace dir (st st' : St W) r :
  ensureOutputDir S dir st = (r, st') ->
  trace st' = (trace st ++ mkdirEvents dir)%list.
Proof.
  unfold ensureOutputDir, mkdirEvents, when, ret.
  destruct dir as [d|]; [destruct (truthy d)|]; intros H.
  - now apply call_trace in H.
  - inversion H; subst. now rewrite app_nil_r.
  - inversion H; subst. now rewrite app_nil_r.
Qed.

(** A run of the [try] block that throws: the calls made are an initial
    segment of the sequence of a complete run, the last of them is the one
    that threw, and if [fs.unlink] was reached it is [fs.unlink] that
    threw. *)
Lemma optimizeImage_try_Thrown input q dir keep f (st st' : St W) e :
  optimizeImage_try S input q dir keep f st = (Thrown e, st') ->
  exists evs,
    trace st' = (trace st ++ evs)%list /\
    evs `prefix_of` successEvents input q dir keep f /\
    evs <> [] /\
    (In (EvUnlink input) evs ->
     evs = successEvents input q dir keep f /\
     exists w, fs_unlink S input w = (Thrown e, world st')).
Proof.
  unfold optimizeImage_try, successEvents. unfold bind at 1.
  destruct (access S input st) as [[[]|e1] s1] eqn:E1.
  2:{ intros H; inversion H; subst. apply call_trace in E1.
      exists [EvAccess input]. split; [exact E1|].
      split; [eexists; reflexivity|]. split; [discriminate|].
      intros [Hin|[]]; discriminate. }
  apply call_trace in E1. unfold bind at 1.
  destruct (stat_size S input s1) as [[original|e2] s2] eqn:E2.
  2:{ intros H; inversion H; subst. apply call_trace in E2.
      exists [EvAccess input; EvStat input].
      split; [rewrite E2, E1, <- app_assoc; reflexivity|].
      split; [eexists; reflexivity|]. split; [discriminate|].
      intros [Hin|[Hin|[]]]; discriminate. }
  apply call_trace in E2. unfold bind at 1.
  destruct (ensureOutputDir S dir s2) as [[[]|e3] s3] eqn:E3.
  2:{ intros H; inversion H; subst. apply ensureOutputDir_trace in E3.
      exists ([EvAccess input; EvStat input] ++ mkdirEvents dir)%list.
      split; [rewrite E3, E2, E1, <- !app_assoc; reflexivity|].
      split; [eexists; rewrite <- app_assoc; reflexivity|].
      split; [discriminate|].
      intros Hin. exfalso. apply in_app_iff in Hin as [[Hin|[Hin|[]]]|Hin];
        try discriminate.
      unfold mkdirEvents in Hin.
      destruct dir as [d|]; [destruct (truthy d)|]; simpl in Hin;
        try contradiction; destruct Hin as [Hin|[]]; discriminate. }
  apply ensureOutputDir_trace in E3. unfold bind at 1.
  destruct (toFile S input (encoderFor f q) (outputPathFor input dir f) s3)
    as [[[]|e4] s4] eqn:E4.
  2:{ intros H; inversion H; subst. apply call_trace in E4.
      exists ([EvAccess input; EvStat input] ++ mkdirEvents dir
              ++ [EvToFile input (encoderFor f q) (outputPathFor input dir f)])%list.
      split; [rewrite E4, E3, E2, E1, <- !app_assoc; reflexivity|].
      split.
      { exists ([EvStat (outputPathFor input dir f)]
                ++ if deletesOriginal input keep f then [EvUnlink input] else [])%list.
        rewrite <- !app_assoc. reflexivity. }
      split; [discriminate|].
      intros Hin. exfalso.
      apply in_app_iff in Hin as [[Hin|[Hin|[]]]|Hin]; try discriminate.
      apply in_app_iff in Hin as [Hin|[Hin|[]]]; try discriminate.
      unfold mkdirEvents in Hin.
      destruct dir as [d|]; [destruct (truthy d)|]; simpl in Hin;
        try contradiction; destruct Hin as [Hin|[]]; discriminate. }
  apply call_trace in E4. unfold bind at 1.
  destruct (stat_size S (outputPathFor input dir f) s4) as [[optimized|e5] s5] eqn:E5.
  2:{ intros H; inversion H; subst. apply call_trace in E5.
      exists ([EvAccess input; EvStat input] ++ mkdirEvents dir
              ++ [EvToFile input (encoderFor f q) (outputPathFor input dir f);
                  EvStat (outputPathFor input dir f)])%list.
      split; [rewrite E5, E4, E3, E2, E1, <- !app_assoc; reflexivity|].
      split.
      { exists (if deletesOriginal input keep f then [EvUnlink input] else []).
        rewrite <- !app_assoc. reflexivity. }
      split; [discriminate|].
      intros Hin. exfalso.
      apply in_app_iff in Hin as [[Hin|[Hin|[]]]|Hin]; try discriminate.
      apply in_app_iff in Hin as [Hin|[Hin|[Hin|[]]]]; try discriminate.
      unfold mkdirEvents in Hin.
      destruct dir as [d|]; [destruct (truthy d)|]; simpl in Hin;
        try contradiction; destruct Hin as [Hin|[]]; discriminate. }
  apply call_trace in E5. unfold bind at 1, when.
  destruct (deletesOriginal input keep f) eqn:Edel.
  - destruct (unlink S input s5) as [[[]|e6] s6] eqn:E6; [discriminate|].
    intros H; inversion H; subst.
    pose proof (call_inv _ _ _ _ _ E6) as [Hw E6'].
    exists ([EvAccess input; EvStat input] ++ mkdirEvents dir
            ++ [EvToFile input (encoderFor f q) (outputPathFor input dir f);
                EvStat (outputPathFor input dir f)] ++ [EvUnlink input])%list.
    split; [rewrite E6', E5, E4, E3, E2, E1, <- !app_assoc; reflexivity|].
    split; [exists []; now rewrite app_nil_r|].
    split; [discriminate|].
    intros _. split; [reflexivity|]. eauto.
  - unfold ret. discriminate.
Qed.

End RunShape.

Lemma successEvents_own input options :
  Forall (ownCall input options)
    (successEvents input (chosenQuality options) (outputDir options)
       (default false (keepOriginal options)) (chosenFormat options)).
Proof.
  unfold successEvents, mkdirEvents.
  apply Forall_app_2; [|apply Forall_app_2; [|apply Forall_app_2]].
  - constructor; [reflexivity|]. constructor; [now left|constructor].
  - destruct (outputDir options) as [d|] eqn:E; [destruct (truthy d)|];
      try constructor; [exact E|constructor].
  - constructor; [simpl; auto|]. constructor; [now right|constructor].
  - destruct (deletesOriginal _ _ _); constructor; [reflexivity|constructor].
Qed.

Lemma Forall_prefix {A} (P : A -> Prop) (l1 l2 : list A) :
  l1 `prefix_of` l2 -> Forall P l2 -> Forall P l1.
Proof. intros [k ->] H. now apply Forall_app in H as [H _]. Qed.

Section RunTheorems.

Context {W : Type} (S : Sys W).

(** The shape of every run of [optimizeImage]. *)
Lemma optimizeImage_run_shape
    (input : string) (options : OptimizeOptions) (st st' : St W)
    (r : OptimizeResult) :
  optimizeImage S input options st = (Ok r, st') ->
  exists evs,
    trace st' = (trace st ++ evs)%list /\
    evs `prefix_of`
      successEvents input (chosenQuality options) (outputDir options)
        (default false (keepOriginal options)) (chosenFormat options) /\
    head evs = Some (EvAccess input) /\
    (success r = true ->
     evs = successEvents input (chosenQuality options) (outputDir options)
             (default false (keepOriginal options)) (chosenFormat options)) /\
    Forall (ownCall input options) evs.
Proof.
  unfold optimizeImage, try_catch, chosenQuality, chosenFormat.
  destruct (optimizeImage_try S input _ _ _ _ st) as [[r0|e] st0] eqn:E;
    intros H; inversion H; subst; clear H.
  - apply optimizeImage_try_Ok in E as (_ & Ht & _).
    eexists. split; [exact Ht|]. split; [reflexivity|].
    split; [reflexivity|]. split; [reflexivity|].
    apply successEvents_own.
  - apply optimizeImage_try_Thrown in E as (evs & Ht & Hpre & Hne & _).
    exists evs. split; [exact Ht|]. split; [exact Hpre|]. split; [|split].
    + destruct Hpre as [k Hk]. destruct evs as [|ev evs]; [congruence|].
      unfold successEvents in Hk. simpl in Hk. inversion Hk. reflexivity.
    + discriminate.
    + eapply Forall_prefix; [exact Hpre|]. apply successEvents_own.
Qed.

(** X1.  Whatever the file system and the codec do, the calls of one run of
    [optimizeImage] are an initial segment of the fixed sequence
    [access(input)], [stat(input)], [mkdir(outputDir)] if it is set,
    [sharp(input)...toFile(output)], [stat(output)], [unlink(input)] if the
    original is to be deleted.  The run starts with [access(input)]; a
    successful result means the whole sequence was made; and every call
    concerns the source, the output path or [outputDir] of this run. *)
Theorem optimizeImage_calls
    (input : string) (options : OptimizeOptions) (st st' : St W)
    (r : OptimizeResult) :
  optimizeImage S input options st = (Ok r, st') ->
  exists evs,
    trace st' = (trace st ++ evs)%list /\
    evs `prefix_of`
      successEvents input (chosenQuality options) (outputDir options)
        (default false (keepOriginal options)) (chosenFormat options) /\
    head evs = Some (EvAccess input) /\
    (success r = true ->
     evs = successEvents input (chosenQuality options) (outputDir options)
             (default false (keepOriginal options)) (chosenFormat options)) /\
    Forall (ownCall input options) evs.
Proof. exact (optimizeImage_run_shape input options st st' r). Qed.

(** X2.  The original is never unlinked in a run that ends in failure,
    unless the failure is that of [fs.unlink] itself: if a failed run did
    call [fs.unlink(input)], then every earlier step had succeeded (the
    image was written and measured), [fs.unlink] threw, and the result
    carries its error. *)
Theorem failed_run_unlinks_only_if_unlink_failed
    (input : string) (options : OptimizeOptions) (st st' : St W)
    (r : OptimizeResult) (evs : list Event) :
  optimizeImage S input options st = (Ok r, st') ->
  success r = false ->
  trace st' = (trace st ++ evs)%list ->
  In (EvUnlink input) evs ->
  evs = successEvents input (chosenQuality options) (outputDir options)
          (default false (keepOriginal options)) (chosenFormat options) /\
  exists e w,
    fs_unlink S input w = (Thrown e, world st') /\
    r = failureResult input e.
Proof.
  unfold optimizeImage, try_catch, chosenQuality, chosenFormat.
  destruct (optimizeImage_try S input _ _ _ _ st) as [[r0|e] st0] eqn:E;
    intros H Hs Ht Hin; inversion H; subst; clear H.
  - apply optimizeImage_try_Ok in E as (Hr & _). rewrite Hr in Hs. discriminate.
  - apply optimizeImage_try_Thrown in E as (evs' & Ht' & _ & _ & Hun).
    rewrite Ht' in Ht. apply app_inv_head in Ht. subst evs'.
    destruct (Hun Hin) as (Hall & w & Hw). split; [exact Hall|]. eauto.
Qed.

End RunTheorems.

(** A [.png] whose directory is read-only: the image is converted, the
    deletion is refused, and the result is a failure although the output
    file has been written. *)
Lemma failed_run_unlinks_only_if_unlink_failed_witness :
  exists r st' evs,
    optimizeImage (sys_readonly Sim.halving) "ro/a.png" no_options
      (Sim.start (Sim.disk [("ro/a.png", 80%N)])) = (Ok r, st') /\
    success r = false /\
    trace st' = ([] ++ evs)%list /\
    In (EvUnlink "ro/a.png") evs /\
    world st' !! "ro/a.webp" = Some 40%N /\
    error r = Some "EACCES: permission denied, unlink 'ro/a.png'" /\
    evs = successEvents "ro/a.png" (chosenQuality no_options) (outputDir no_options)
            (default false (keepOriginal no_options)) (chosenFormat no_options) /\
    exists e w,
      sim_unlink_denied "ro/a.png" w = (Thrown e, world st') /\
      r = failureResult "ro/a.png" e.
Proof.
  eexists. eexists. eexists.
  split; [vm_compute; reflexivity|]. split; [reflexivity|].
  split; [reflexivity|]. split; [simpl; auto 10|].
  split; [reflexivity|]. split; [reflexivity|].
  eapply (failed_run_unlinks_only_if_unlink_failed (sys_readonly Sim.halving)
            "ro/a.png" no_options (Sim.start (Sim.disk [("ro/a.png", 80%N)]))).
  - vm_compute; reflexivity.
  - reflexivity.
  - reflexivity.
  - simpl; auto 10.
Defined.

Lemma optimizeImage_calls_witness :
  exists r st' evs,
    optimizeImage (Sim.sys Sim.refusing) "broken.png" no_options
      (Sim.start (Sim.disk [("broken.png", 12%N)])) = (Ok r, st') /\
    evs = [EvAccess "broken.png"; EvStat "broken.png";
           EvToFile "broken.png" (EncWebp (of_Z 75) 6) "broken.webp"] /\
    trace st' = ([] ++ evs)%list /\
    evs `prefix_of`
      successEvents "broken.png" (chosenQuality no_options) (outputDir no_options)
        (default false (keepOriginal no_options)) (chosenFormat no_options) /\
    head evs = Some (EvAccess "broken.png") /\
    (success r = true ->
     evs = successEvents "broken.png" (chosenQuality no_options)
             (outputDir no_options)
             (default false (keepOriginal no_options)) (chosenFormat no_options)) /\
    Forall (ownCall "broken.png" no_options) evs.
Proof.
  destruct (optimizeImage_calls (Sim.sys Sim.refusing) "broken.png" no_options
              (Sim.start (Sim.disk [("broken.png", 12%N)])) _ _ eq_refl)
    as (evs & Ht & H).
  eexists. eexists. exists evs.
  split; [vm_compute; reflexivity|].
  vm_compute in Ht. subst evs. split; [reflexivity|]. split; [reflexivity|].
  exact H.
Defined.

Lemma for_of_app {W X Acc} (xs ys : list X) (body : X -> Acc -> M W Acc)
    (acc : Acc) (st : St W) :
  for_of (xs ++ ys) body acc st
  = bind (for_of xs body acc) (fun acc' => for_of ys body acc') st.
Proof.
  revert acc st. induction xs as [|x xs IH]; intros acc st; simpl.
  - reflexivity.
  - unfold bind in *. destruct (body x acc st) as [[acc1|e] st1]; [|reflexivity].
    apply IH.
Qed.

Section BatchMore.

Context {W : Type} (S : Sys W).

(** What the loop appends does not depend on what [results] held before. *)
Lemma optimizeBatch_loop_any (options : OptimizeOptions) (inputs : list string) :
  forall st : St W, exists rs st',
    forall acc,
      for_of inputs
        (fun input results =>
           let! result := optimizeImage S input options in
           ret (results ++ [result])%list) acc st = (Ok (acc ++ rs)%list, st').
Proof.
  induction inputs as [|x xs IH]; intros st.
  - exists [], st. intros acc. simpl. now rewrite app_nil_r.
  - destruct (optimizeImage_total S x options st) as (r & st1 & Hr & _).
    destruct (IH st1) as (rs & st' & Hloop).
    exists (r :: rs), st'. intros acc.
    simpl. unfold bind at 1. unfold bind at 1. rewrite Hr. simpl.
    rewrite Hloop, <- app_assoc. reflexivity.
Qed.

(** X3.  A batch over [xs ++ ys] is the batch over [xs] followed by the
    batch over [ys] run in the state the first one leaves, and its results
    are the two lists of results one after the other. *)
Theorem optimizeBatch_app
    (xs ys : list string) (options : OptimizeOptions) (st : St W) :
  exists ra st1 rb st2,
    optimizeBatch S xs options st = (Ok ra, st1) /\
    optimizeBatch S ys options st1 = (Ok rb, st2) /\
    optimizeBatch S (xs ++ ys) options st = (Ok (ra ++ rb)%list, st2).
Proof.
  destruct (optimizeBatch_loop_any options xs st) as (ra & st1 & Ha).
  destruct (optimizeBatch_loop_any options ys st1) as (rb & st2 & Hb).
  exists ra, st1, rb, st2. unfold optimizeBatch.
  split; [exact (Ha [])|]. split; [exact (Hb [])|].
  rewrite for_of_app. unfold bind at 1. rewrite (Ha []). simpl. apply Hb.
Qed.

Lemma optimizeImage_own_calls input options :
  emits (ownCall input options) (optimizeImage S input options).
Proof.
  intros st r st' H.
  destruct (optimizeImage_total S input options st) as (r0 & st0 & Hr & _).
  rewrite Hr in H. inversion H; subst.
  destruct (optimizeImage_run_shape S input options st st' r0 Hr)
    as (evs & Ht & _ & _ & _ & Hown).
  eauto.
Qed.

Lemma emits_weaken {A} (P Q : Event -> Prop) (m : M W A) :
  (forall ev, P ev -> Q ev) -> emits P m -> emits Q m.
Proof.
  intros HPQ Hm st r st' H. destruct (Hm _ _ _ H) as (evs & Ht & Hf).
  exists evs. split; [exact Ht|]. eapply Forall_impl; eauto.
Qed.

Lemma optimizeBatch_loop_calls options (all inputs : list string) :
  (forall x, In x inputs -> In x all) ->
  forall acc,
    emits (batchCall all options)
      (for_of inputs
         (fun input results =>
            let! result := optimizeImage S input options in
            ret (results ++ [result])%list) acc).
Proof.
  induction inputs as [|x xs IH]; intros Hsub acc; simpl.
  - apply emits_ret.
  - apply emits_bind.
    + apply emits_bind; [|intros; apply emits_ret].
      eapply emits_weaken; [|apply optimizeImage_own_calls].
      intros ev Hev. exists x. split; [apply Hsub; now left|exact Hev].
    + intros acc'. apply IH. intros y Hy. apply Hsub. now right.
Qed.

(** X4.  A batch touches nothing but its inputs and their outputs: every
    call it makes is one that [optimizeImage] may make for one of the
    inputs.  In particular every path it unlinks is one of the inputs, a
    file is only written by [sharp] at the output path of an input, and no
    archive is touched. *)
Theorem optimizeBatch_touches_only_inputs
    (inputs : list string) (options : OptimizeOptions) (st st' : St W)
    (results : list OptimizeResult) :
  optimizeBatch S inputs options st = (Ok results, st') ->
  exists evs,
    trace st' = (trace st ++ evs)%list /\
    Forall (batchCall inputs options) evs /\
    (forall p, In (EvUnlink p) evs -> In p inputs) /\
    (forall i enc o, In (EvToFile i enc o) evs ->
       In i inputs /\
       o = outputPathFor i (outputDir options) (chosenFormat options)).
Proof.
  intros H.
  destruct (optimizeBatch_loop_calls options inputs inputs (fun _ h => h) []
              _ _ _ H) as (evs & Ht & Hf).
  exists evs. split; [exact Ht|]. split; [exact Hf|].
  rewrite Forall_forall in Hf. split.
  - intros p Hp. apply list_elem_of_In in Hp.
    destruct (Hf _ Hp) as (input & Hin & Hown). simpl in Hown. now subst.
  - intros i enc o Hp. apply list_elem_of_In in Hp.
    destruct (Hf _ Hp) as (input & Hin & Hi & _ & Ho). now subst.
Qed.

End BatchMore.

Lemma optimizeBatch_touches_only_inputs_witness :
  exists results st' evs,
    optimizeBatch (Sim.sys Sim.halving) ["a.png"; "missing.png"; "c.jpg"]
      no_options (Sim.start (Sim.disk [("a.png", 100%N); ("c.jpg", 300%N)]))
    = (Ok results, st') /\
    trace st' = ([] ++ evs)%list /\
    Forall (batchCall ["a.png"; "missing.png"; "c.jpg"] no_options) evs /\
    (forall p, In (EvUnlink p) evs -> In p ["a.png"; "missing.png"; "c.jpg"]) /\
    (forall i enc o, In (EvToFile i enc o) evs ->
       In i ["a.png"; "missing.png"; "c.jpg"] /\
       o = outputPathFor i (outputDir no_options) (chosenFormat no_options)).
Proof.
  destruct (optimizeBatch_touches_only_inputs (Sim.sys Sim.halving)
              ["a.png"; "missing.png"; "c.jpg"] no_options
              (Sim.start (Sim.disk [("a.png", 100%N); ("c.jpg", 300%N)]))
              _ _ eq_refl) as (evs & Ht & H).
  eexists. eexists. exists evs. split; [vm_compute; reflexivity|].
  split; [exact Ht|exact H].
Defined.

(* ===================================================================== *)
(** ** Further numeric properties *)
(* ===================================================================== *)





Lemma round_Q_inject (n : Z) : round_Q (inject_Z n) = n.
Proof.
  unfold round_Q, Qfloor, inject_Z. simpl.
  symmetry. apply (Z.div_unique _ 2 n 1); lia.
Qed.


Section ReductionBounds.

Context {W : Type} (S : Sys W).


End ReductionBounds.


(* ===================================================================== *)
(** ** Further properties of [findImagesInDirectory] *)
(* ===================================================================== *)

Section ScanMore.

Import Scan.

Lemma scanEntry_unreadable (e : Dirent) :
  readable e = false ->
  forall cur images, exists x, scanEntry true cur e images = Thrown x.
Proof.
  induction e as [name|name entries IH|name x|name] using Dirent_nested_ind;
    intros Hr cur images; simpl in Hr; try discriminate.
  - rewrite scanEntry_Directory.
    generalize (NodePath.join [cur; name]) as dir. intros dir.
    revert images. induction entries as [|e entries IHl]; intros images;
      simpl in Hr; [discriminate|].
    inversion IH as [|? ? IHe IHes]; subst. simpl.
    destruct (readable e) eqn:He.
    + destruct (scanEntry_readable e He true dir images) as (mid & ->).
      apply IHl; assumption.
    + destruct (IHe eq_refl dir images) as (x & ->). eauto.
  - simpl. eauto.
Qed.

Lemma scanEntries_unreadable (entries : list Dirent) :
  forallb readable entries = false ->
  forall cur images, exists x, scanEntries true cur entries images = Thrown x.
Proof.
  induction entries as [|e entries IH]; intros Hr cur images; simpl in Hr;
    [discriminate|]. simpl.
  destruct (readable e) eqn:He.
  - destruct (scanEntry_readable e He true cur images) as (mid & ->).
    now apply IH.
  - destruct (scanEntry_unreadable e He cur images) as (x & ->). eauto.
Qed.

(** X7.  A recursive scan returns a list exactly when every directory
    below the one scanned can be read; one unreadable directory anywhere
    makes the whole call throw, and the images found before it are lost. *)
Theorem recursive_scan_returns_iff_readable (dir : string) (entries : list Dirent) :
  ((exists images, findImagesInDirectory dir (Ok entries) true = Ok images)
   <-> forallb readable entries = true) /\
  ((exists x, findImagesInDirectory dir (Ok entries) true = Thrown x)
   <-> forallb readable entries = false).
Proof.
  unfold findImagesInDirectory.
  destruct (forallb readable entries) eqn:Hr.
  - destruct (scanEntries_readable entries Hr true dir []) as (images & Himg).
    split; split; try discriminate; eauto.
    intros (x & Hx). rewrite Himg in Hx. discriminate.
  - destruct (scanEntries_unreadable entries Hr dir []) as (x & Hx).
    split; split; try discriminate; eauto.
    intros (images & Himg). rewrite Hx in Himg. discriminate.
Qed.

Lemma Found_recursive dir e p : Found false dir e p -> Found true dir e p.
Proof.
  intros H. inversion H; subst; [now constructor|discriminate].
Qed.

(** X8.  Whatever a scan without recursion returns is also returned by the
    recursive scan of the same directory, when that one returns. *)
Theorem recursive_scan_finds_top_level
    (dir : string) (entries : list Dirent) (images : list string) :
  findImagesInDirectory dir (Ok entries) true = Ok images ->
  exists flat,
    findImagesInDirectory dir (Ok entries) false = Ok flat /\
    forall p, In p flat -> In p images.
Proof.
  intros Hrec. exists (topLevelImages dir entries).
  unfold findImagesInDirectory in *. split.
  - now rewrite scanEntries_flat.
  - intros p Hp.
    assert (Hall : Forall scan_sound entries)
      by (apply Forall_forall; intros; apply scanEntry_sound).
    destruct (scanEntries_sound true dir entries Hall [] images Hrec)
      as (new & -> & Hnew).
    pose proof (scanEntries_flat dir entries []) as Hflat.
    destruct (scanEntries_sound false dir entries Hall [] _ Hflat)
      as (new' & Heq & Hnew').
    simpl in Heq. subst new'. simpl. apply Hnew.
    apply Hnew' in Hp as (e & Hin & Hf).
    exists e. split; [exact Hin|]. now apply Found_recursive.
Qed.

End ScanMore.

Lemma recursive_scan_finds_top_level_witness :
  exists images flat,
    Scan.findImagesInDirectory "pics"
      (Ok [Scan.File "PHOTO.JPG";
           Scan.Directory "sub" [Scan.File "img.PnG"]; Scan.File "b.webp"])
      true = Ok images /\
    images = ["pics/PHOTO.JPG"; "pics/sub/img.PnG"; "pics/b.webp"] /\
    Scan.findImagesInDirectory "pics"
      (Ok [Scan.File "PHOTO.JPG";
           Scan.Directory "sub" [Scan.File "img.PnG"]; Scan.File "b.webp"])
      false = Ok flat /\
    flat = ["pics/PHOTO.JPG"; "pics/b.webp"] /\
    forall p, In p flat -> In p images.
Proof.
  destruct (recursive_scan_finds_top_level "pics"
              [Scan.File "PHOTO.JPG";
               Scan.Directory "sub" [Scan.File "img.PnG"]; Scan.File "b.webp"]
              _ eq_refl) as (flat & Hflat & Hsub).
  eexists. exists flat. split; [reflexivity|]. split; [reflexivity|].
  split; [exact Hflat|]. split; [|exact Hsub].
  vm_compute in Hflat. now inversion Hflat.
Defined.

(* ===================================================================== *)
(** ** Further properties of [formatBytes] *)
(* ===================================================================== *)

Section FormatMore.

Import Format.
Local Open Scope N_scope.

Lemma unitIndex_0 (bytes : N) : 1 <= bytes -> bytes < 1024 -> unitIndex bytes = 0%nat.
Proof.
  intros Hpos Hlt. unfold unitIndex.
  assert (N.log2 bytes < 10) by (apply N.log2_lt_pow2; [lia|exact Hlt]).
  rewrite N.div_small by assumption. reflexivity.
Qed.

Lemma scaled_0 (bytes : N) : scaled bytes 0 = bytes * 100.
Proof.
  unfold scaled.
  assert (H : ((Z.of_N bytes # 1) / (1024 ^ Z.of_nat 0 # 1) * (100 # 1)
               == inject_Z (Z.of_N bytes * 100))%Q).
  { unfold Qeq, Qdiv, Qmult, Qinv, inject_Z. simpl. lia. }
  unfold round_Q. rewrite H.
  fold (round_Q (inject_Z (Z.of_N bytes * 100))). rewrite round_Q_inject. lia.
Qed.

(** X9.  Below 1024 the count is printed as it is: for
    [1 <= bytes < 1024], [formatBytes(bytes)] is the decimal writing of
    [bytes] followed by [" Bytes"]. *)
Theorem formatBytes_below_1024 (bytes : N) :
  1 <= bytes -> bytes < 1024 ->
  formatBytes bytes = decimal bytes ++ " Bytes".
Proof.
  intros Hpos Hlt. unfold formatBytes.
  destruct (N.eqb_spec bytes 0) as [->|_]; [lia|].
  rewrite (unitIndex_0 bytes Hpos Hlt), scaled_0.
  unfold hundredths_to_string.
  rewrite N.Div0.mod_mul. rewrite N.div_mul by lia. reflexivity.
Qed.


End FormatMore.

Lemma formatBytes_below_1024_witness :
  (1 <= 1023)%N /\ (1023 < 1024)%N /\
  Format.formatBytes 1023 = "1023 Bytes" /\
  Format.formatBytes 1023 = Format.decimal 1023 ++ " Bytes".
Proof.
  split; [discriminate|]. split; [reflexivity|]. split; [reflexivity|].
  apply formatBytes_below_1024; [discriminate|reflexivity].
Defined.


(* ===================================================================== *)
(** ** Further properties of the Express route *)
(* ===================================================================== *)

Section ExpressMore.

Context {W : Type} (S : Sys W) (tempDir now : string).




End ExpressMore.

Section ExpressCleanup.

Context {W : Type} (S : Sys W) (tempDir now : string).

Lemma unlink_quietly_trace p (st st' : St W) r :
  unlink_quietly S p st = (r, st') -> trace st' = (trace st ++ [EvUnlink p])%list.
Proof.
  unfold unlink_quietly, try_catch, unlink, ret.
  destruct (call (EvUnlink p) (fs_unlink S p) st) as [[[]|e] s1] eqn:E;
    intros H; inversion H; subst; now apply call_trace in E.
Qed.

Lemma unlink_all_trace {X} (proj : X -> string) (xs : list X) (st st' : St W) r :
  for_of xs (fun x (_ : unit) => unlink_quietly S (proj x)) tt st = (r, st') ->
  trace st' = (trace st ++ map (fun x => EvUnlink (proj x)) xs)%list.
Proof.
  revert st. induction xs as [|x xs IH]; intros st; simpl.
  - intros H; inversion H; subst. now rewrite app_nil_r.
  - unfold bind. destruct (unlink_quietly S (proj x) st) as [[[]|e] s1] eqn:E.
    + intros H. apply IH in H. apply unlink_quietly_trace in E.
      rewrite H, E, <- app_assoc. reflexivity.
    + destruct (unlink_quietly_returns S (proj x) st) as (s2 & Hs).
      rewrite Hs in E. discriminate.
Qed.

Lemma addFilesToArchive_extends files :
  emits (fun _ => True) (addFilesToArchive S files).
Proof.
  unfold addFilesToArchive. apply emits_for_of. intros p archive.
  apply emits_try_catch.
  - apply emits_bind; [apply emits_call; exact I|intros].
    apply emits_bind; [apply emits_emit; exact I|intros; apply emits_ret].
  - intros e. apply emits_bind; [apply emits_emit; exact I|intros; apply emits_ret].
Qed.

Lemma express_respondOrArchive_extends zipPath acc :
  emits (fun _ => True) (Express.respondOrArchive S zipPath acc).
Proof.
  destruct acc as [results [|o os]]; simpl; [apply emits_ret|].
  unfold Express.startArchive.
  apply emits_bind; [apply addFilesToArchive_extends|intros].
  apply emits_bind; [apply emits_emit; exact I|intros; apply emits_ret].
Qed.

Lemma express_processFile_unlinks q f file acc (st st' : St W) r :
  Express.processFile S tempDir q f file acc st = (r, st') ->
  exists evs, trace st' = (trace st ++ evs)%list /\
    In (EvUnlink (Express.path file)) evs.
Proof.
  destruct acc as [results optimizedFiles].
  unfold Express.processFile, try_catch. unfold bind at 1.
  destruct (optimizeImage_total S (Express.path file)
              (Express.uploadOptions tempDir q f) st) as (r0 & st1 & Hr & _).
  rewrite Hr.
  destruct (optimizeImage_quiet S _ _ _ _ _ Hr) as (evs1 & Ht1 & _).
  unfold bind at 1.
  destruct (success r0).
  - unfold ret at 1. unfold bind.
    destruct (unlink_quietly S (Express.path file) st1) as [[[]|e] s2] eqn:E.
    + intros H; inversion H; subst. apply unlink_quietly_trace in E.
      exists (evs1 ++ [EvUnlink (Express.path file)])%list.
      split; [rewrite E, Ht1, <- app_assoc; reflexivity|].
      apply in_app_iff. right. now left.
    + destruct (unlink_quietly_returns S (Express.path file) st1) as (s3 & Hs).
      rewrite Hs in E. discriminate.
  - unfold bind, emit, ret. simpl.
    match goal with
    | |- context [unlink_quietly S ?p ?s] =>
        destruct (unlink_quietly S p s) as [[[]|e] s2] eqn:E
    end.
    + intros H; inversion H; subst. apply unlink_quietly_trace in E. simpl in E.
      exists (evs1 ++ [EvConsoleError (Express.originalname file);
                       EvUnlink (Express.path file)])%list.
      split; [rewrite E, Ht1, <- !app_assoc; reflexivity|].
      apply in_app_iff. right. right. now left.
    + match type of E with
      | unlink_quietly S ?p ?s = _ =>
          destruct (unlink_quietly_returns S p s) as (s3 & Hs)
      end.
      rewrite Hs in E. discriminate.
Qed.

Lemma express_loop_unlinks q f (uploads : list Express.MulterFile) :
  forall acc (st st' : St W) r,
    for_of uploads (Express.processFile S tempDir q f) acc st = (r, st') ->
    exists evs, trace st' = (trace st ++ evs)%list /\
      forall file, In file uploads -> In (EvUnlink (Express.path file)) evs.
Proof.
  induction uploads as [|u us IH]; intros acc st st' r; simpl.
  - intros H; inversion H; subst. exists []. rewrite app_nil_r.
    split; [reflexivity|]. intros file [].
  - unfold bind.
    destruct (Express.processFile S tempDir q f u acc st) as [[acc1|e] s1] eqn:E.
    + intros H. apply express_processFile_unlinks in E as (evs1 & Ht1 & Hin1).
      apply IH in H as (evs2 & Ht2 & Hin2).
      exists (evs1 ++ evs2)%list. split; [now rewrite Ht2, Ht1, app_assoc|].
      intros file [<-|Hf]; apply in_app_iff; [left; exact Hin1|right; auto].
    + destruct acc as [results optimizedFiles].
      destruct (express_processFile S tempDir q f u results optimizedFiles st)
        as (r1 & s2 & Hs & _).
      rewrite Hs in E. discriminate.
Qed.

(** X12.  On every path through the route that processes files, 400, 500
    or archive, [fs.unlink] is called on the temporary file of every
    upload. *)
Theorem express_route_unlinks_uploads
    (req : Express.Request) (uploads : list Express.MulterFile) (st : St W) :
  Express.files req = Some uploads ->
  exists evs,
    trace (snd (Express.optimizeRoute S tempDir now req st))
    = (trace st ++ evs)%list /\
    forall file, In file uploads -> In (EvUnlink (Express.path file)) evs.
Proof.
  intros Hfiles. unfold Express.optimizeRoute. rewrite Hfiles.
  destruct uploads as [|u us].
  { exists []. simpl. rewrite app_nil_r. split; [reflexivity|]. intros file []. }
  unfold try_catch.
  destruct (Express.optimizeRoute_try S tempDir _ _ (u :: us) _ st)
    as [[out|e] s1] eqn:Etry.
  - simpl. unfold Express.optimizeRoute_try in Etry.
    apply bind_Ok in Etry as (a & s2 & Hmk & Etry).
    apply call_trace in Hmk.
    apply bind_Ok in Etry as (acc & s3 & Hloop & Hrest).
    apply express_loop_unlinks in Hloop as (evs2 & Ht2 & Hin2).
    destruct (express_respondOrArchive_extends _ _ _ _ _ Hrest)
      as (evs3 & Ht3 & _).
    exists ([EvMkdir tempDir] ++ evs2 ++ evs3)%list.
    split; [rewrite Ht3, Ht2, Hmk, <- !app_assoc; reflexivity|].
    intros file Hf. rewrite !in_app_iff. right. left. apply Hin2, Hf.
  - destruct (express_try_Thrown S tempDir _ _ _ _ _ _ _ Etry) as (w & Hw).
    assert (Hs1 : trace s1 = (trace st ++ [EvMkdir tempDir])%list).
    { unfold Express.optimizeRoute_try, bind, mkdir_recursive, call in Etry.
      rewrite Hw in Etry. inversion Etry; subst. reflexivity. }
    unfold Express.cleanupAndFail, bind.
    destruct (for_of (u :: us) _ tt s1) as [[[]|e1] s2] eqn:E1.
    + apply unlink_all_trace in E1.
      destruct (unlink_quietly_returns S
                  (NodePath.join [tempDir; ("optimized-" ++ now ++ ".zip")%string]) s2)
        as (s3 & E2).
      rewrite E2. apply unlink_quietly_trace in E2.
      unfold emit, ret; cbn [snd trace].
      exists ([EvMkdir tempDir]
              ++ map (fun x => EvUnlink (Express.path x)) (u :: us)
              ++ [EvUnlink (NodePath.join
                              [tempDir; ("optimized-" ++ now ++ ".zip")%string]);
                  EvConsoleError "Erro ao processar imagens:"])%list.
      split.
      * rewrite E2, E1, Hs1, <- !app_assoc. reflexivity.
      * intros file Hf. rewrite !in_app_iff. right. left.
        apply in_map_iff. eauto.
    + destruct (unlink_all_quietly_returns S Express.path (u :: us) s1) as (s4 & Hs4).
      rewrite Hs4 in E1. discriminate.
Qed.

End ExpressCleanup.

Lemma express_route_unlinks_uploads_witness :
  exists evs,
    trace (snd (Express.optimizeRoute (Sim.sys Sim.refusing) "/srv/temp"
                  "1700000000000"
                  {| Express.body_quality := None;
                     Express.body_format := None;
                     Express.body_keepOriginal := None;
                     Express.files :=
                       Some [ {| Express.path := "/srv/uploads/u1";
                                 Express.originalname := "one.png" |} ] |}
                  (Sim.start (Sim.disk [("/srv/uploads/u1", 100%N)]))))
    = ([] ++ evs)%list /\
    forall file,
      In file [ {| Express.path := "/srv/uploads/u1";
                   Express.originalname := "one.png" |} ] ->
      In (EvUnlink (Express.path file)) evs.
Proof.
  apply (express_route_unlinks_uploads (Sim.sys Sim.refusing) "/srv/temp"
           "1700000000000"
           {| Express.body_quality := None;
              Express.body_format := None;
              Express.body_keepOriginal := None;
              Express.files :=
                Some [ {| Express.path := "/srv/uploads/u1";
                          Express.originalname := "one.png" |} ] |}
           _ (Sim.start (Sim.disk [("/srv/uploads/u1", 100%N)])) eq_refl).
Defined.

Section ExpressArchive.

Context {W : Type} (S : Sys W) (tempDir now : string).


End ExpressArchive.


(* ===================================================================== *)
(** ** Further properties of the serverless handler *)
(* ===================================================================== *)

Section ServerlessMore.

Context {W : Type} (S : Sys W).







End ServerlessMore.

(* ===================================================================== *)
(** ** The upload filter and the upload error middleware *)
(* ===================================================================== *)

Section UploadFacts.

Import Upload.

(** X16.  The upload filter accepts every file that the directory scan
    would take as an image and that the browser form lets through: if the
    lowercased extension of the name is [.png], [.jpg], [.jpeg] or [.webp]
    and the type is one of [image/png], [image/jpeg], [image/jpg],
    [image/webp], then [fileFilter] calls back with [true].  The converse
    fails, the expression of the filter being unanchored: [x.jpgx] of type
    [image/jpeg-like] is accepted too. *)
Theorem fileFilter_accepts_images (originalname mimetype : string) :
  Scan.isImageName originalname = true ->
  formAccepts mimetype = true ->
  fileFilter originalname mimetype = Ok true /\
  fileFilter "x.jpgx" "image/jpeg-like" = Ok true /\
  Scan.isImageName "x.jpgx" = false.
Proof.
  intros Hname Hmime. split; [|split; reflexivity].
  apply isImageName_spec in Hname. unfold hasImageExtension in Hname.
  unfold fileFilter.
  assert (Hext : allowedTypes_test
                   (NodePath.toLowerCase (NodePath.extname originalname)) = true).
  { destruct Hname as [<-|[<-|[<-|[<-|[]]]]]; reflexivity. }
  assert (Hm : allowedTypes_test mimetype = true).
  { unfold formAccepts, Scan.includes, validTypes in Hmime.
    apply existsb_exists in Hmime as (t & Hin & Heq).
    apply String.eqb_eq in Heq. subst t.
    destruct Hin as [<-|[<-|[<-|[<-|[]]]]]; reflexivity. }
  now rewrite Hext, Hm.
Qed.

(** X17.  Every error of the upload stage is answered 400 with a body that
    holds an [error] text that is not empty and nothing else; [next()] is
    called only when there is no error.  In particular the rejection of
    [fileFilter] reaches the client as 400 with its own message. *)
Theorem upload_errors_are_400 (err : UploadError) :
  (exists text,
     handleMulterError (Some err) = Sent (RespJson 400 (errorOnly text)) /\
     text <> "") /\
  handleMulterError None = Next /\
  handleMulterError (Some (asUploadError (JsError rejection)))
  = Sent (RespJson 400 (errorOnly rejection)).
Proof.
  split; [|split; reflexivity].
  destruct err as [code message|[message|]]; simpl.
  - destruct (String.eqb code "LIMIT_FILE_SIZE"); eexists; (split; [reflexivity|]);
      discriminate.
  - unfold truthy. destruct (String.eqb message "") eqn:E; simpl.
    + eexists; split; [reflexivity|discriminate].
    + eexists; split; [reflexivity|]. now apply String.eqb_neq.
  - eexists; split; [reflexivity|discriminate].
Qed.

End UploadFacts.

Lemma fileFilter_accepts_images_witness :
  Scan.isImageName "PHOTO.JPG" = true /\
  Upload.formAccepts "image/jpeg" = true /\
  Upload.fileFilter "PHOTO.JPG" "image/jpeg" = Ok true /\
  Upload.fileFilter "x.jpgx" "image/jpeg-like" = Ok true /\
  Scan.isImageName "x.jpgx" = false.
Proof.
  split; [reflexivity|]. split; [reflexivity|].
  apply (fileFilter_accepts_images "PHOTO.JPG" "image/jpeg"); reflexivity.
Defined.

(* ===================================================================== *)
(** ** The command [optimize <input>] *)
(* ===================================================================== *)


Section CliFacts.

Context {W : Type} (S : Sys W).




End CliFacts.


Section CliCalls.

Context {W : Type} (S : Sys W).



End CliCalls.


Section CliReport.



End CliReport.

